(** * boost::interprocess::file_mutex — a shallow embedding

    The header [include/boost/interprocess/sync/file_mutex.hpp] wraps a
    [file_lock] in a mutex-shaped class: the constructor derives the name of
    a companion lock file, makes sure that file exists, and binds a
    [file_lock] to it; every locking member forwards to the [file_lock].

    The C++ objects live in an object store indexed by references, so that
    [swap], move construction and move assignment act on shared, mutable
    instances exactly as the member functions do.  The operating system
    (file system, descriptor table, advisory lock table) is explicit state
    threaded through every call. *)

From Stdlib Require Import ZArith.
From stdpp Require Import base option gmap sets list strings.

Local Open Scope string_scope.

(** ** Results of a call *)

Inductive exn := interprocess_exception | filesystem_error.

(** [Ret a]: the call returns [a].  [Throw e]: it leaves by exception [e].
    [Blocks]: the calling thread stays suspended inside the call.
    [Undefined]: the call was made on an object that no longer exists, or
    released a descriptor that is not open. *)
Inductive outcome (A : Type) :=
  | Ret (a : A)
  | Throw (e : exn)
  | Blocks
  | Undefined.
Arguments Ret {A} a.
Arguments Throw {A} e.
Arguments Blocks {A}.
Arguments Undefined {A}.

(** ** Paths, descriptors and the file_lock value *)

(** [filesystem::path], compared and concatenated as its native string. *)
Abbreviation path := string (only parsing).

(** An operating-system file descriptor. *)
Abbreviation handle := nat (only parsing).

(** [boost::posix_time::ptime], an absolute point in time. *)
Abbreviation ptime := Z (only parsing).

(** Modelled from the spec: the class [file_lock] of
    boost/interprocess/sync/file_lock.hpp, which is not among the sources.
    It is an opaque operating-system handle that is owned by the value or
    absent; a default-constructed [file_lock] owns nothing. *)
Record file_lock := { m_file_hnd : option handle }.

Definition file_lock_default : file_lock := {| m_file_hnd := None |}.

(** [class file_mutex]: its only data member is [file_lock m_file_lock]. *)
Record file_mutex := { m_file_lock : file_lock }.

#[global] Instance file_lock_eq_dec : EqDecision file_lock.
Proof. solve_decision. Defined.
#[global] Instance file_mutex_eq_dec : EqDecision file_mutex.
Proof. solve_decision. Defined.

(** ** The operating system *)

(** Modelled from the spec: the file system and descriptor table behind
    boost::filesystem and [file_lock].  [w_files] maps each existing file to
    its contents, [w_denied] holds the paths on which the system refuses to
    create, open or unlink (an I/O failure other than non-existence),
    [w_open] maps each open descriptor to the file it refers to, and
    [w_locks] is the state of the advisory-lock facility. *)
Record os_world (L : Type) := {
  w_files : gmap string (list Byte.byte);
  w_denied : gset string;
  w_open : gmap nat string;
  w_locks : L
}.
Arguments w_files {L} _.
Arguments w_denied {L} _.
Arguments w_open {L} _.
Arguments w_locks {L} _.

(** Modelled from the spec: the operations of [file_lock] that
    [file_mutex] calls, as the abstract capability interface of the
    advisory-lock facility.  Each operation reads the descriptor table,
    receives the [file_lock] it is invoked on and acts on the lock state;
    [fl_on_close] is what closing a descriptor does to the claims held
    through it. *)
Class FileLockApi (L : Type) := {
  fl_lock : gmap nat string → file_lock → L → outcome () * L;
  fl_try_lock : gmap nat string → file_lock → L → outcome bool * L;
  fl_timed_lock : ptime → gmap nat string → file_lock → L → outcome bool * L;
  fl_unlock : gmap nat string → file_lock → L → outcome () * L;
  fl_lock_sharable : gmap nat string → file_lock → L → outcome () * L;
  fl_try_lock_sharable : gmap nat string → file_lock → L → outcome bool * L;
  fl_timed_lock_sharable :
    ptime → gmap nat string → file_lock → L → outcome bool * L;
  fl_unlock_sharable : gmap nat string → file_lock → L → outcome () * L;
  fl_on_close : nat → L → L
}.

(** ** Program state and the call monad *)

(** A reference to a [file_mutex] object. *)
Abbreviation ref := nat (only parsing).

Record state (L : Type) := {
  objs : gmap nat file_mutex;
  os : os_world L
}.
Arguments objs {L} _.
Arguments os {L} _.

Definition M (L A : Type) : Type := state L → outcome A * state L.

Definition call_bind {L A B} (k : A → M L B) (m : M L A) : M L B :=
  fun st =>
    match m st with
    | (Ret a, st') => k a st'
    | (Throw e, st') => (Throw e, st')
    | (Blocks, st') => (Blocks, st')
    | (Undefined, st') => (Undefined, st')
    end.

#[global] Instance call_ret {L} : MRet (M L) := fun A a st => (Ret a, st).
#[global] Instance call_mbind {L} : MBind (M L) := fun A B => call_bind.

(** Modelled from the spec: the open modes of a file stream.  Append mode
    keeps what an existing file holds; the other two output modes empty
    it.  Every output mode creates a missing file. *)
Inductive openmode := ios_app | ios_out | ios_trunc.

Definition keeps_contents (m : openmode) : bool :=
  match m with ios_app => true | _ => false end.

Section FileMutex.
Context {L : Type} `{!FileLockApi L}.

Definition with_objs (f : gmap nat file_mutex → gmap nat file_mutex)
    (st : state L) : state L :=
  {| objs := f (objs st); os := os st |}.

Definition with_os (f : os_world L → os_world L) (st : state L) : state L :=
  {| objs := objs st; os := f (os st) |}.

(** *** The file system *)

Definition alloc_fd (p : path) (w : os_world L) : nat * os_world L :=
  let fd := fresh (dom (w_open w)) in
  (fd, {| w_files := w_files w; w_denied := w_denied w;
          w_open := <[fd := p]> (w_open w); w_locks := w_locks w |}).

Definition set_file (p : path) (c : list Byte.byte) (w : os_world L)
    : os_world L :=
  {| w_files := <[p := c]> (w_files w); w_denied := w_denied w;
     w_open := w_open w; w_locks := w_locks w |}.

(** Modelled from the spec: [filesystem::ofstream(p, mode)].  Opening
    never throws; when it fails the stream holds no descriptor.  *)
Definition ofstream_open (p : path) (m : openmode)
    : M L (option nat) := fun st =>
  let w := os st in
  if decide (p ∈ w_denied w) then (Ret None, st)
  else
    let w1 :=
      match w_files w !! p with
      | Some c => if keeps_contents m then w else set_file p [] w
      | None => set_file p [] w
      end in
    let '(fd, w2) := alloc_fd p w1 in
    (Ret (Some fd), with_os (fun _ => w2) st).

(** Modelled from the spec: closing descriptor [fd].  Closing a
    descriptor that is not open is a double release. *)
Definition close_file (fd : nat) : M L () := fun st =>
  let w := os st in
  match w_open w !! fd with
  | None => (Undefined, st)
  | Some _ =>
      (Ret (),
       with_os (fun _ =>
         {| w_files := w_files w; w_denied := w_denied w;
            w_open := delete fd (w_open w);
            w_locks := fl_on_close fd (w_locks w) |}) st)
  end.

(** The destructor of the stream closes the descriptor it holds. *)
Definition ofstream_close (s : option nat) : M L () :=
  match s with
  | Some fd => close_file fd
  | None => mret ()
  end.

(** Modelled from the spec: [filesystem::remove(p)].  A filesystem error
    when the system refuses access to [p], whether or not a file is there;
    otherwise [false] when [p] did not exist and [true] when it was
    removed. *)
Definition filesystem_remove (p : path) : M L bool := fun st =>
  let w := os st in
  if decide (p ∈ w_denied w) then (Throw filesystem_error, st)
  else
    match w_files w !! p with
    | None => (Ret false, st)
    | Some _ =>
        (Ret true,
         with_os (fun _ =>
           {| w_files := delete p (w_files w); w_denied := w_denied w;
              w_open := w_open w; w_locks := w_locks w |}) st)
    end.

(** Modelled from the spec: the constructor [file_lock(const char* name)].
    It opens the existing file [name] and owns the descriptor; it throws
    [interprocess_exception] when the file cannot be opened. *)
Definition file_lock_open (name : path) : M L file_lock := fun st =>
  let w := os st in
  match w_files w !! name with
  | None => (Throw interprocess_exception, st)
  | Some _ =>
      if decide (name ∈ w_denied w) then (Throw interprocess_exception, st)
      else
        let '(fd, w') := alloc_fd name w in
        (Ret {| m_file_hnd := Some fd |}, with_os (fun _ => w') st)
  end.

(** Modelled from the spec: the destructor of [file_lock] releases the
    handle when it owns one. *)
Definition file_lock_dtor (fl : file_lock) : M L () :=
  match m_file_hnd fl with
  | Some fd => close_file fd
  | None => mret ()
  end.

(** *** Objects *)

Definition deref (r : ref) : M L file_mutex := fun st =>
  match objs st !! r with
  | Some m => (Ret m, st)
  | None => (Undefined, st)
  end.

Definition assign (r : ref) (m : file_mutex) : M L () := fun st =>
  match objs st !! r with
  | Some _ => (Ret (), with_objs (insert r m) st)
  | None => (Undefined, st)
  end.

Definition new_object (m : file_mutex) : M L ref := fun st =>
  let r := fresh (dom (objs st)) in
  (Ret r, with_objs (insert r m) st).

Definition delete_object (r : ref) : M L () := fun st =>
  (Ret (), with_objs (delete r) st).

(** Run an operation of the lock facility on the current lock state. *)
Definition on_locks {A}
    (f : gmap nat string → L → outcome A * L) : M L A := fun st =>
  let w := os st in
  let '(o, l') := f (w_open w) (w_locks w) in
  (o, with_os (fun _ =>
        {| w_files := w_files w; w_denied := w_denied w;
           w_open := w_open w; w_locks := l' |}) st).

(** *** The members of [file_mutex] *)

(** [file_mutex() {}] *)
Definition file_mutex_default : M L ref :=
  new_object {| m_file_lock := file_lock_default |}.

(** [return file_path += suffix;] *)
Definition build_file_lock_path (file_path suffix : path) : path :=
  file_path +:+ suffix.

(** The default argument of the constructor: [suffix = ".lock"]. *)
Definition default_suffix : path := ".lock".

(** [filesystem::ofstream(lock_path, filesystem::ofstream::app);
     return file_lock(lock_path.string().c_str());]
    The stream is a temporary: it is destroyed at the end of its
    statement. *)
Definition create_file_lock (lock_path : path) : M L file_lock :=
  s ← ofstream_open lock_path ios_app;
  ofstream_close s;;
  file_lock_open lock_path.

(** [file_mutex(path, suffix)
      : m_file_lock(create_file_lock(build_file_lock_path(path, suffix)))] *)
Definition file_mutex_ctor (p suffix : path) : M L ref :=
  fl ← create_file_lock (build_file_lock_path p suffix);
  new_object {| m_file_lock := fl |}.

(** Modelled from the spec: [file_lock::swap], applied to the [m_file_lock]
    members of the objects [this] and [other].  It exchanges the two
    handles through a temporary, in three assignments. *)
Definition file_lock_swap (this other : ref) : M L () :=
  tmp ← deref this;
  o ← deref other;
  assign this {| m_file_lock := m_file_lock o |};;
  assign other {| m_file_lock := m_file_lock tmp |}.

(** [void swap(file_mutex &other) { m_file_lock.swap(other.m_file_lock); }] *)
Definition swap (this other : ref) : M L () := file_lock_swap this other.

(** [file_mutex(BOOST_RV_REF(file_mutex) moved) { this->swap(moved); }]
    The member [m_file_lock] is default-constructed before the body. *)
Definition file_mutex_move_ctor (moved : ref) : M L ref :=
  this ← new_object {| m_file_lock := file_lock_default |};
  swap this moved;;
  mret this.

(** [~file_mutex()]: implicit, it destroys [m_file_lock]. *)
Definition file_mutex_dtor (this : ref) : M L () :=
  m ← deref this;
  file_lock_dtor (m_file_lock m);;
  delete_object this.

(** [file_mutex tmp(boost::move(moved)); this->swap(tmp); return *this;]
    and [tmp] is destroyed when the function returns. *)
Definition file_mutex_move_assign (this moved : ref) : M L () :=
  tmp ← file_mutex_move_ctor moved;
  swap this tmp;;
  file_mutex_dtor tmp.

(** [void lock() { m_file_lock.lock(); }] and its seven siblings. *)
Definition lock (this : ref) : M L () :=
  m ← deref this; on_locks (fun fds => fl_lock fds (m_file_lock m)).

Definition try_lock (this : ref) : M L bool :=
  m ← deref this; on_locks (fun fds => fl_try_lock fds (m_file_lock m)).

Definition timed_lock (this : ref) (abs_time : ptime) : M L bool :=
  m ← deref this;
  on_locks (fun fds => fl_timed_lock abs_time fds (m_file_lock m)).

Definition unlock (this : ref) : M L () :=
  m ← deref this; on_locks (fun fds => fl_unlock fds (m_file_lock m)).

Definition lock_sharable (this : ref) : M L () :=
  m ← deref this;
  on_locks (fun fds => fl_lock_sharable fds (m_file_lock m)).

Definition try_lock_sharable (this : ref) : M L bool :=
  m ← deref this;
  on_locks (fun fds => fl_try_lock_sharable fds (m_file_lock m)).

Definition timed_lock_sharable (this : ref) (abs_time : ptime) : M L bool :=
  m ← deref this;
  on_locks (fun fds => fl_timed_lock_sharable abs_time fds (m_file_lock m)).

Definition unlock_sharable (this : ref) : M L () :=
  m ← deref this;
  on_locks (fun fds => fl_unlock_sharable fds (m_file_lock m)).

(** [static bool remove(const filesystem::path &path)
      { return filesystem::remove(path); }] *)
Definition remove (p : path) : M L bool := filesystem_remove p.

End FileMutex.

(** ** Calls, traces and the ownership invariant *)

(** The eight locking members, as data: one constructor per member. *)
Inductive locking_call :=
  | call_lock
  | call_try_lock
  | call_timed_lock (abs_time : ptime)
  | call_unlock
  | call_lock_sharable
  | call_try_lock_sharable
  | call_timed_lock_sharable (abs_time : ptime)
  | call_unlock_sharable.

(** Every member of the class that a program can call.  There is no copy
    constructor and no copy assignment: [BOOST_MOVABLE_BUT_NOT_COPYABLE]
    removes both. *)
Inductive op :=
  | op_default
  | op_ctor (p suffix : path)
  | op_move_ctor (moved : ref)
  | op_move_assign (this moved : ref)
  | op_swap (this other : ref)
  | op_locking (c : locking_call) (this : ref)
  | op_remove (p : path)
  | op_dtor (this : ref).

Section Calls.
Context {L : Type} `{!FileLockApi L}.

(** The operation of the underlying [file_lock] that a locking member
    names; a [void] member yields [None]. *)
Definition fl_invoke (c : locking_call) (fds : gmap nat string)
    (fl : file_lock) (l : L) : outcome (option bool) * L :=
  let void (x : outcome () * L) : outcome (option bool) * L :=
    (match x.1 with
     | Ret _ => Ret None | Throw e => Throw e
     | Blocks => Blocks | Undefined => Undefined
     end, x.2) in
  let boolean (x : outcome bool * L) : outcome (option bool) * L :=
    (match x.1 with
     | Ret b => Ret (Some b) | Throw e => Throw e
     | Blocks => Blocks | Undefined => Undefined
     end, x.2) in
  match c with
  | call_lock => void (fl_lock fds fl l)
  | call_try_lock => boolean (fl_try_lock fds fl l)
  | call_timed_lock t => boolean (fl_timed_lock t fds fl l)
  | call_unlock => void (fl_unlock fds fl l)
  | call_lock_sharable => void (fl_lock_sharable fds fl l)
  | call_try_lock_sharable => boolean (fl_try_lock_sharable fds fl l)
  | call_timed_lock_sharable t => boolean (fl_timed_lock_sharable t fds fl l)
  | call_unlock_sharable => void (fl_unlock_sharable fds fl l)
  end.

(** The member of [file_mutex] that a locking call names. *)
Definition invoke (c : locking_call) (this : ref) : M L (option bool) :=
  match c with
  | call_lock => lock this ;; mret None
  | call_try_lock => b ← try_lock this; mret (Some b)
  | call_timed_lock t => b ← timed_lock this t; mret (Some b)
  | call_unlock => unlock this ;; mret None
  | call_lock_sharable => lock_sharable this ;; mret None
  | call_try_lock_sharable => b ← try_lock_sharable this; mret (Some b)
  | call_timed_lock_sharable t => b ← timed_lock_sharable this t; mret (Some b)
  | call_unlock_sharable => unlock_sharable this ;; mret None
  end.

Definition run_op (o : op) : M L () :=
  match o with
  | op_default => file_mutex_default ;; mret ()
  | op_ctor p s => file_mutex_ctor p s ;; mret ()
  | op_move_ctor moved => file_mutex_move_ctor moved ;; mret ()
  | op_move_assign this moved => file_mutex_move_assign this moved
  | op_swap this other => swap this other
  | op_locking c this => invoke c this ;; mret ()
  | op_remove p => remove p ;; mret ()
  | op_dtor this => file_mutex_dtor this
  end.

(** A program is a sequence of calls; a call that throws or blocks leaves
    the state it reached and the program goes on. *)
Definition exec (ops : list op) (st : state L) : state L :=
  foldl (fun s o => (run_op o s).2) st ops.

(** A process starts with no [file_mutex] object. *)
Definition init (w : os_world L) : state L := {| objs := ∅; os := w |}.

(** Instance [r] owns descriptor [h]. *)
Definition owns (st : state L) (r : ref) (h : handle) : Prop :=
  ∃ m, objs st !! r = Some m ∧ m_file_hnd (m_file_lock m) = Some h.

(** Instance [r] exists and owns nothing. *)
Definition empty_instance (st : state L) (r : ref) : Prop :=
  objs st !! r = Some {| m_file_lock := file_lock_default |}.

(** No descriptor has two owners, and every owned descriptor is open. *)
Definition single_owner (st : state L) : Prop :=
  (∀ r1 r2 h, owns st r1 h → owns st r2 h → r1 = r2) ∧
  (∀ r h, owns st r h → is_Some (w_open (os st) !! h)).

(** The objects a call names exist. *)
Definition op_live (st : state L) (o : op) : Prop :=
  match o with
  | op_default | op_ctor _ _ | op_remove _ => True
  | op_move_ctor r | op_locking _ r | op_dtor r => is_Some (objs st !! r)
  | op_move_assign r1 r2 | op_swap r1 r2 =>
      is_Some (objs st !! r1) ∧ is_Some (objs st !! r2)
  end.

(** A member call [call] is exactly the primitive call [prim] on the
    current descriptor table and lock state: same result, the lock state
    the primitive leaves, and nothing else touched. *)
Definition delegates {A} (call : M L A)
    (prim : gmap nat string → L → outcome A * L) (st : state L) : Prop :=
  call st =
    ((prim (w_open (os st)) (w_locks (os st))).1,
     {| objs := objs st;
        os := {| w_files := w_files (os st);
                 w_denied := w_denied (os st);
                 w_open := w_open (os st);
                 w_locks := (prim (w_open (os st)) (w_locks (os st))).2 |} |}).

(** The operating system after the descriptor of [fl], if it has one, is
    closed. *)
Definition released (fl : file_lock) (w : os_world L) : os_world L :=
  match m_file_hnd fl with
  | Some h =>
      {| w_files := w_files w; w_denied := w_denied w;
         w_open := delete h (w_open w);
         w_locks := fl_on_close h (w_locks w) |}
  | None => w
  end.

Definition empty_mutex : file_mutex := {| m_file_lock := file_lock_default |}.

(** A call preserves single ownership whatever way it ends. *)
Definition preserves {A} (m : M L A) : Prop :=
  ∀ st, single_owner st → single_owner (m st).2.

(** The removal the specification words describe: it deletes the lock file
    of target [p], that is the file at [p] followed by the suffix.  It is
    compared with [remove] below. *)
Definition remove_as_specified (p suffix : path) : M L bool :=
  filesystem_remove (build_file_lock_path p suffix).

End Calls.

(** ** The contract of the timed primitives *)

(** Modelled from the spec: what the advisory-lock facility promises of
    its timed acquisitions.  [holds_exclusive h l] and [holds_sharable h l]
    observe whether a claim is held through descriptor [h].  A timed
    acquisition that reports [true] holds the claim; one that reports
    [false] changed nobody's ownership. *)
Class TimedLockContract (L : Type) `{!FileLockApi L} := {
  holds_exclusive : nat → L → bool;
  holds_sharable : nat → L → bool;
  timed_lock_true : ∀ t fds h l l',
    fl_timed_lock t fds {| m_file_hnd := Some h |} l = (Ret true, l') →
    holds_exclusive h l' = true;
  timed_lock_false : ∀ t fds h l l',
    fl_timed_lock t fds {| m_file_hnd := Some h |} l = (Ret false, l') →
    ∀ h', holds_exclusive h' l' = holds_exclusive h' l ∧
          holds_sharable h' l' = holds_sharable h' l;
  timed_lock_sharable_true : ∀ t fds h l l',
    fl_timed_lock_sharable t fds {| m_file_hnd := Some h |} l = (Ret true, l') →
    holds_sharable h l' = true;
  timed_lock_sharable_false : ∀ t fds h l l',
    fl_timed_lock_sharable t fds {| m_file_hnd := Some h |} l = (Ret false, l') →
    ∀ h', holds_exclusive h' l' = holds_exclusive h' l ∧
          holds_sharable h' l' = holds_sharable h' l
}.

(** ** A reference lock facility *)

(** Modelled from the spec: an advisory-lock facility in which a claim is
    held through a descriptor, an exclusive claim excludes every other
    claim on the same file, and a sharable claim excludes only an exclusive
    one.  Within one call nobody else runs, so an acquisition that would
    have to wait either blocks (untimed) or gives up at its deadline. *)
Module RefLocks.

Inductive claim := Exclusive | Sharable.

#[global] Instance claim_eq_dec : EqDecision claim.
Proof. solve_decision. Defined.

(** Some other descriptor of the same file holds a claim of a kind
    accepted by [bad]. *)
Definition contended (bad : claim → bool) (fds : gmap nat string)
    (h : nat) (l : gmap nat claim) : bool :=
  bool_decide
    (filter (fun hc => hc.1 ≠ h ∧ fds !! hc.1 = fds !! h ∧ bad hc.2 = true) l
     ≠ ∅).

Definition any_claim (c : claim) : bool := true.
Definition exclusive_claim (c : claim) : bool :=
  match c with Exclusive => true | Sharable => false end.

Definition blocked_for (want : claim) : claim → bool :=
  match want with Exclusive => any_claim | Sharable => exclusive_claim end.

(** The descriptor behind a [file_lock], when it is one that is open. *)
Definition valid_handle (fds : gmap nat string) (fl : file_lock)
    : option nat :=
  h ← m_file_hnd fl; _ ← fds !! h; Some h.

Definition acquire (want : claim) (fds : gmap nat string) (fl : file_lock)
    (l : gmap nat claim) : outcome () * gmap nat claim :=
  match valid_handle fds fl with
  | None => (Throw interprocess_exception, l)
  | Some h =>
      if contended (blocked_for want) fds h l then (Blocks, l)
      else (Ret (), <[h := want]> l)
  end.

Definition try_acquire (want : claim) (fds : gmap nat string)
    (fl : file_lock) (l : gmap nat claim) : outcome bool * gmap nat claim :=
  match valid_handle fds fl with
  | None => (Throw interprocess_exception, l)
  | Some h =>
      if contended (blocked_for want) fds h l then (Ret false, l)
      else (Ret true, <[h := want]> l)
  end.

Definition timed_acquire (want : claim) (abs_time : ptime)
    (fds : gmap nat string) (fl : file_lock) (l : gmap nat claim)
    : outcome bool * gmap nat claim :=
  try_acquire want fds fl l.

Definition release (fds : gmap nat string) (fl : file_lock)
    (l : gmap nat claim) : outcome () * gmap nat claim :=
  match valid_handle fds fl with
  | None => (Throw interprocess_exception, l)
  | Some h => (Ret (), delete h l)
  end.

#[global] Instance api : FileLockApi (gmap nat claim) := {|
  fl_lock := acquire Exclusive;
  fl_try_lock := try_acquire Exclusive;
  fl_timed_lock := timed_acquire Exclusive;
  fl_unlock := release;
  fl_lock_sharable := acquire Sharable;
  fl_try_lock_sharable := try_acquire Sharable;
  fl_timed_lock_sharable := timed_acquire Sharable;
  fl_unlock_sharable := release;
  fl_on_close := delete
|}.

Definition holds (c : claim) (h : nat) (l : gmap nat claim) : bool :=
  bool_decide (l !! h = Some c).

(** A world with the files [a] and [a.lock] and nothing open. *)
Definition w0 : os_world (gmap nat claim) :=
  {| w_files := {[ "a" := [Byte.x61]; "a.lock" := [Byte.x6c] ]};
     w_denied := ∅; w_open := ∅; w_locks := ∅ |}.

(** An empty world. *)
Definition w_empty : os_world (gmap nat claim) :=
  {| w_files := ∅; w_denied := ∅; w_open := ∅; w_locks := ∅ |}.

End RefLocks.

(** Two instances over the same target in a world that had no files: the
    state used to exercise the locking members. *)
Definition two_instances : state (gmap nat RefLocks.claim) :=
  exec [op_ctor "a" ".lock"; op_ctor "a" ".lock"] (init RefLocks.w_empty).

(** The same two instances and a default-constructed third. *)
Definition three_instances : state (gmap nat RefLocks.claim) :=
  exec [op_default] two_instances.

(** ** Claims on a lock file in the reference facility *)



(** ** Frames and the descriptor ledger *)

Section Frames.
Context {L : Type} `{!FileLockApi L}.

(** A call keeps a property of the state whatever way it ends. *)
Definition keeps (P : state L → Prop) {A} (m : M L A) : Prop :=
  ∀ st, P st → P (m st).2.

(** The descriptor ledger of a process that started in world [w]: every
    descriptor that was open at the start is still open on the same file
    and belongs to no instance, every other open descriptor is owned by an
    instance, and no descriptor has two owners. *)
Definition ledger (w : os_world L) (st : state L) : Prop :=
  single_owner st ∧
  (∀ fd p, w_open w !! fd = Some p →
     w_open (os st) !! fd = Some p ∧ ∀ r, ¬ owns st r fd) ∧
  (∀ fd, is_Some (w_open (os st) !! fd) →
     is_Some (w_open w !! fd) ∨ ∃ r, owns st r fd).

End Frames.

(** * Properties *)

Ltac call_unfold :=
  unfold mbind, call_mbind, call_bind, mret, call_ret in *.

Section Removal.
Context {L : Type} `{!FileLockApi L}.

(** The three ways a removal ends. *)
Lemma filesystem_remove_cases (p : path) (st : state L) :
  (p ∈ w_denied (os st) ∧
     filesystem_remove p st = (Throw filesystem_error, st)) ∨
  ((p ∉ w_denied (os st)) ∧ w_files (os st) !! p = None ∧
     filesystem_remove p st = (Ret false, st)) ∨
  ((p ∉ w_denied (os st)) ∧ is_Some (w_files (os st) !! p) ∧
     filesystem_remove p st =
       (Ret true,
        with_os (fun _ =>
          {| w_files := delete p (w_files (os st));
             w_denied := w_denied (os st);
             w_open := w_open (os st);
             w_locks := w_locks (os st) |}) st)).
Proof.
  unfold filesystem_remove.
  destruct (decide (p ∈ w_denied (os st))) as [Hd|Hd]; [by left|right].
  destruct (w_files (os st) !! p) as [c|] eqn:Hc; [right|left]; eauto.
Qed.

(** A removal changes neither the objects, the descriptors, the lock state
    nor what the system refuses. *)
Lemma filesystem_remove_frame (p : path) (st : state L) :
  objs (filesystem_remove p st).2 = objs st ∧
  w_open (os (filesystem_remove p st).2) = w_open (os st) ∧
  w_locks (os (filesystem_remove p st).2) = w_locks (os st) ∧
  w_denied (os (filesystem_remove p st).2) = w_denied (os st).
Proof.
  destruct (filesystem_remove_cases p st)
    as [(_ & ->)|[(_ & _ & ->)|(_ & _ & ->)]]; done.
Qed.

Lemma filesystem_remove_other (p q : path) (st : state L) :
  q ≠ p →
  w_files (os (filesystem_remove p st).2) !! q = w_files (os st) !! q.
Proof.
  intros Hq. destruct (filesystem_remove_cases p st)
    as [(_ & ->)|[(_ & _ & ->)|(_ & _ & ->)]]; simpl; [done..|].
  by rewrite lookup_delete_ne.
Qed.

(** A path followed by a non-empty suffix is a different path. *)
Lemma build_file_lock_path_ne (p suffix : path) :
  suffix ≠ "" → build_file_lock_path p suffix ≠ p.
Proof.
  intros Hs. unfold build_file_lock_path.
  induction p as [|a p IH]; simpl; [done|].
  intros [= Heq]. by apply IH.
Qed.

(** C1 (amended): [remove p] hands the path [p] it is given, unchanged and
    with no suffix appended, to [filesystem::remove]: when it reports
    [true] a file existed at [p] and the file at [p] is gone, and called
    with the lock-file path of a target it is the removal of that lock
    file. *)
Theorem remove_deletes_given_path (p : path) (st : state L) :
  remove p st = filesystem_remove p st ∧
  ((remove p st).1 = Ret true →
     is_Some (w_files (os st) !! p) ∧
     w_files (os (remove p st).2) !! p = None) ∧
  (∀ t suffix,
     p = build_file_lock_path t suffix →
     remove p st = remove_as_specified t suffix st).
Proof.
  split; [done|]. split; [|by intros t suffix ->].
  unfold remove. destruct (filesystem_remove_cases p st)
    as [(_ & ->)|[(_ & _ & ->)|(_ & Hex & ->)]]; simpl; [done..|].
  intros _. split; [done|]. apply lookup_delete_eq.
Qed.

(** C7: [remove p] returns [true] exactly when the file existed and is gone
    afterwards; when it returns [false] the file did not exist and nothing
    has changed, and it does return [false] for a missing file unless the
    system refuses the path, so a second call right after a successful one
    returns [false]; when the system refuses the path the call throws a
    filesystem error, changes nothing and returns no boolean. *)
Theorem remove_reports_existence (p : path) (st : state L) :
  ((remove p st).1 = Ret true ↔
     is_Some (w_files (os st) !! p) ∧
     w_files (os (remove p st).2) !! p = None) ∧
  ((remove p st).1 = Ret false →
     w_files (os st) !! p = None ∧ (remove p st).2 = st) ∧
  (w_files (os st) !! p = None → p ∉ w_denied (os st) →
     (remove p st).1 = Ret false) ∧
  ((remove p st).1 = Ret true →
     (remove p (remove p st).2).1 = Ret false) ∧
  ((remove p st).1 = Throw filesystem_error ↔ p ∈ w_denied (os st)) ∧
  (p ∈ w_denied (os st) → ∀ b, (remove p st).1 ≠ Ret b) ∧
  (∀ e, (remove p st).1 = Throw e →
     e = filesystem_error ∧ (remove p st).2 = st) ∧
  (remove p st).1 ≠ Blocks ∧ (remove p st).1 ≠ Undefined.
Proof.
  unfold remove. destruct (filesystem_remove_cases p st)
    as [(Hd & Hr)|[(Hd & Hn & Hr)|(Hd & Hex & Hr)]].
  - rewrite Hr; simpl.
    split; [split; [done|]|].
    { intros [[c Hc] Hafter]. congruence. }
    split; [done|]. split; [done|]. split; [done|].
    split; [done|]. split; [done|].
    split; [by intros e [= <-]|]. by split.
  - rewrite Hr; simpl. rewrite Hn.
    split; [split; [done|by intros [[? ?] _]]|].
    split; [done|]. split; [done|]. split; [done|].
    split; [split; [done|by intros ?]|].
    split; [done|]. split; [done|]. by split.
  - rewrite Hr; simpl.
    split; [split; [intros _; split; [done|apply lookup_delete_eq]|done]|].
    split; [done|].
    split; [intros Hn; destruct Hex; congruence|].
    split.
    { intros _. unfold filesystem_remove. simpl.
      rewrite decide_False by done. by rewrite lookup_delete_eq. }
    split; [split; [done|by intros ?]|].
    split; [done|]. split; [done|]. by split.
Qed.

End Removal.

(** C1, as stated, fails: with the files [a] and [a.lock] present,
    [remove "a"] deletes [a] and leaves the lock file [a.lock] in place,
    unlike the removal the specification describes. *)
Lemma remove_ignores_suffix :
  remove "a" (init RefLocks.w0)
    ≠ remove_as_specified "a" default_suffix (init RefLocks.w0) ∧
  w_files (os (remove "a" (init RefLocks.w0)).2) !! "a" = None ∧
  w_files (os (remove "a" (init RefLocks.w0)).2)
    !! build_file_lock_path "a" default_suffix = Some [Byte.x6c] ∧
  w_files (os (remove_as_specified "a" default_suffix
                 (init RefLocks.w0)).2)
    !! build_file_lock_path "a" default_suffix = None.
Proof.
  split.
  - intros Heq.
    apply (f_equal (fun x => w_files (os x.2) !! "a")) in Heq.
    vm_compute in Heq. discriminate.
  - repeat split; vm_compute; reflexivity.
Qed.

Lemma remove_deletes_given_path_witness :
  (remove "a.lock" (init RefLocks.w0)).1 = Ret true ∧
  (is_Some (w_files (os (init RefLocks.w0)) !! "a.lock") ∧
   w_files (os (remove "a.lock" (init RefLocks.w0)).2) !! "a.lock" = None) ∧
  remove "a.lock" (init RefLocks.w0)
    = remove_as_specified "a" default_suffix (init RefLocks.w0).
Proof.
  destruct (remove_deletes_given_path "a.lock" (init RefLocks.w0))
    as (_ & Hgone & Hlock).
  split; [vm_compute; reflexivity|]. split.
  - apply Hgone. vm_compute; reflexivity.
  - apply (Hlock "a" default_suffix). reflexivity.
Defined.

Lemma remove_reports_existence_witness :
  (remove "a.lock" (init RefLocks.w0)).1 = Ret true ∧
  (remove "a.lock" (remove "a.lock" (init RefLocks.w0)).2).1 = Ret false.
Proof.
  destruct (remove_reports_existence "a.lock" (init RefLocks.w0))
    as (_ & _ & _ & Hagain & _).
  split; [vm_compute; reflexivity|].
  apply Hagain. vm_compute; reflexivity.
Defined.

Section Construction.
Context {L : Type} `{!FileLockApi L}.

Lemma fresh_fd_unused (fds : gmap nat string) : fds !! fresh (dom fds) = None.
Proof. apply not_elem_of_dom, is_fresh. Qed.

Lemma fresh_ref_unused (o : gmap nat file_mutex) : o !! fresh (dom o) = None.
Proof. apply not_elem_of_dom, is_fresh. Qed.

(** Construction over a refused lock-file path throws and changes nothing. *)
Lemma file_mutex_ctor_denied (p suffix : path) (st : state L) :
  build_file_lock_path p suffix ∈ w_denied (os st) →
  file_mutex_ctor p suffix st = (Throw interprocess_exception, st).
Proof.
  intros Hd. unfold file_mutex_ctor, create_file_lock. call_unfold.
  unfold ofstream_open. rewrite decide_True by done. simpl.
  unfold file_lock_open.
  destruct (w_files (os st) !! build_file_lock_path p suffix); [|done].
  by rewrite decide_True.
Qed.

(** Otherwise it returns a new object, and this is the state it leaves. *)
Lemma file_mutex_ctor_ok (p suffix : path) (st : state L) :
  build_file_lock_path p suffix ∉ w_denied (os st) →
  file_mutex_ctor p suffix st =
    (Ret (fresh (dom (objs st))),
     {| objs :=
          <[fresh (dom (objs st)) :=
              {| m_file_lock :=
                   {| m_file_hnd := Some (fresh (dom (w_open (os st)))) |} |}]>
            (objs st);
        os :=
          {| w_files :=
               match w_files (os st) !! build_file_lock_path p suffix with
               | Some _ => w_files (os st)
               | None => <[build_file_lock_path p suffix := []]>
                           (w_files (os st))
               end;
             w_denied := w_denied (os st);
             w_open :=
               <[fresh (dom (w_open (os st))) :=
                   build_file_lock_path p suffix]> (w_open (os st));
             w_locks :=
               fl_on_close (fresh (dom (w_open (os st))))
                 (w_locks (os st)) |} |}).
Proof.
  intros Hd. unfold file_mutex_ctor, create_file_lock. call_unfold.
  set (lp := build_file_lock_path p suffix) in *.
  unfold ofstream_open. rewrite decide_False by done.
  unfold alloc_fd, keeps_contents, ofstream_close, close_file, with_os.
  destruct (w_files (os st) !! lp) as [c|] eqn:Hc; simpl;
    rewrite lookup_insert_eq; simpl;
    unfold file_lock_open; simpl.
  - rewrite Hc. rewrite decide_False by done. simpl.
    rewrite delete_insert_id by apply fresh_fd_unused.
    reflexivity.
  - rewrite lookup_insert_eq. rewrite decide_False by done. simpl.
    rewrite delete_insert_id by apply fresh_fd_unused.
    reflexivity.
Qed.

(** C2: the lock-file path is the target path directly followed by the
    suffix, [".lock"] by default; a construction that the system does not
    refuse returns an instance whose handle is bound to that very path, the
    file exists there afterwards, and no other path of the file system
    changes. *)
Theorem ctor_lock_file_path (p suffix : path) (st : state L) :
  build_file_lock_path p suffix = p +:+ suffix ∧
  build_file_lock_path p default_suffix = p +:+ ".lock" ∧
  (p +:+ suffix ∉ w_denied (os st) →
   ∃ r h st',
     file_mutex_ctor p suffix st = (Ret r, st') ∧
     objs st !! r = None ∧
     owns st' r h ∧
     w_open (os st') !! h = Some (p +:+ suffix) ∧
     is_Some (w_files (os st') !! (p +:+ suffix)) ∧
     ∀ q, q ≠ p +:+ suffix →
          w_files (os st') !! q = w_files (os st) !! q).
Proof.
  split; [done|]. split; [done|]. intros Hd.
  eexists _, _, _. split; [by apply file_mutex_ctor_ok|]. simpl.
  split; [apply fresh_ref_unused|].
  split; [eexists; split; [apply lookup_insert_eq|done]|].
  split; [apply lookup_insert_eq|].
  unfold build_file_lock_path.
  destruct (w_files (os st) !! (p +:+ suffix)) as [c|] eqn:Hc.
  - split; [by rewrite Hc|done].
  - split; [by rewrite lookup_insert_eq|].
    intros q Hq. by rewrite lookup_insert_ne.
Qed.

(** C9: construction leaves the contents of an existing lock file as they
    are, creates the file (empty) only when it is missing, touches no other
    file, and the stream it opened in append mode is closed again: the only
    descriptor open afterwards that was not open before is the handle the
    new instance owns. *)
Theorem ctor_keeps_lock_file_contents (p suffix : path) (st : state L) :
  create_file_lock (build_file_lock_path p suffix) =
    (s ← ofstream_open (build_file_lock_path p suffix) ios_app;
     ofstream_close s;;
     file_lock_open (build_file_lock_path p suffix)) ∧
  (∀ c, w_files (os st) !! (p +:+ suffix) = Some c →
        w_files (os (file_mutex_ctor p suffix st).2) !! (p +:+ suffix)
          = Some c) ∧
  (w_files (os st) !! (p +:+ suffix) = None →
     (p +:+ suffix ∉ w_denied (os st) →
        w_files (os (file_mutex_ctor p suffix st).2) !! (p +:+ suffix)
          = Some []) ∧
     (p +:+ suffix ∈ w_denied (os st) →
        w_files (os (file_mutex_ctor p suffix st).2) !! (p +:+ suffix)
          = None)) ∧
  (∀ q, q ≠ p +:+ suffix →
        w_files (os (file_mutex_ctor p suffix st).2) !! q
          = w_files (os st) !! q) ∧
  (∀ fd, is_Some (w_open (os (file_mutex_ctor p suffix st).2) !! fd) →
         is_Some (w_open (os st) !! fd) ∨
         ∃ r, (file_mutex_ctor p suffix st).1 = Ret r ∧
              owns (file_mutex_ctor p suffix st).2 r fd).
Proof.
  split; [done|].
  destruct (decide (build_file_lock_path p suffix ∈ w_denied (os st)))
    as [Hd|Hd].
  - rewrite (file_mutex_ctor_denied _ _ _ Hd). simpl.
    split; [done|]. split; [by intros ?; split|]. split; [done|].
    intros fd Hfd. by left.
  - rewrite (file_mutex_ctor_ok _ _ _ Hd). simpl.
    unfold build_file_lock_path in *.
    split; [intros c Hc; by rewrite Hc|].
    split; [intros Hn; rewrite Hn; split;
              [intros _; apply lookup_insert_eq|done]|].
    split.
    + intros q Hq.
      destruct (w_files (os st) !! (p +:+ suffix)); [done|].
      by rewrite lookup_insert_ne.
    + intros fd Hfd.
      destruct (decide (fd = fresh (dom (w_open (os st))))) as [->|Hne].
      * right. eexists. split; [done|].
        eexists. split; [apply lookup_insert_eq|done].
      * left. by rewrite lookup_insert_ne in Hfd.
Qed.

End Construction.

Lemma ctor_lock_file_path_witness :
  ∃ r h st',
    file_mutex_ctor "a" ".lock" (init RefLocks.w_empty) = (Ret r, st') ∧
    objs (init RefLocks.w_empty) !! r = None ∧
    owns st' r h ∧
    w_open (os st') !! h = Some "a.lock" ∧
    is_Some (w_files (os st') !! "a.lock") ∧
    ∀ q, q ≠ "a.lock" →
         w_files (os st') !! q = w_files RefLocks.w_empty !! q.
Proof.
  apply (ctor_lock_file_path "a" ".lock" (init RefLocks.w_empty)).
  simpl. apply not_elem_of_empty.
Defined.

Lemma ctor_keeps_lock_file_contents_witness :
  w_files (os (file_mutex_ctor "a" ".lock" (init RefLocks.w0)).2)
    !! "a.lock" = Some [Byte.x6c].
Proof.
  destruct (ctor_keeps_lock_file_contents "a" ".lock" (init RefLocks.w0))
    as (_ & Hkeep & _).
  apply Hkeep. vm_compute; reflexivity.
Defined.

Section Locking.
Context {L : Type} `{!FileLockApi L}.

(** Looking up the instance and running a primitive on its [file_lock] is
    that primitive call and nothing more. *)
Lemma forward_delegates {A} (r : ref) (m : file_mutex) (st : state L)
    (prim : file_lock → gmap nat string → L → outcome A * L) :
  objs st !! r = Some m →
  delegates (m' ← deref r; on_locks (prim (m_file_lock m')))
    (prim (m_file_lock m)) st.
Proof.
  intros Hr. unfold delegates. call_unfold.
  unfold deref. rewrite Hr. unfold on_locks.
  by destruct (prim _ _ _).
Qed.

Lemma invoke_delegates (c : locking_call) (r : ref) (m : file_mutex)
    (st : state L) :
  objs st !! r = Some m →
  delegates (invoke c r) (fun fds => fl_invoke c fds (m_file_lock m)) st.
Proof.
  intros Hr. unfold delegates.
  destruct c; simpl; call_unfold;
    unfold lock, try_lock, timed_lock, unlock, lock_sharable,
      try_lock_sharable, timed_lock_sharable, unlock_sharable;
    call_unfold; unfold deref; rewrite Hr; unfold on_locks;
    match goal with
    | |- context [let '(_, _) := ?x in _] => by destruct x as [[]]
    end.
Qed.

(** A call on an object that does not exist is undefined and changes
    nothing. *)
Lemma invoke_dangling (c : locking_call) (r : ref) (st : state L) :
  objs st !! r = None → invoke c r st = (Undefined, st).
Proof.
  intros Hr.
  destruct c; simpl; call_unfold;
    unfold lock, try_lock, timed_lock, unlock, lock_sharable,
      try_lock_sharable, timed_lock_sharable, unlock_sharable;
    call_unfold; unfold deref; by rewrite Hr.
Qed.

(** What a locking call returns and the operating-system state it leaves
    depend on the instance only through the [file_lock] it holds. *)
Lemma invoke_same_file_lock (c : locking_call) (r1 r2 : ref)
    (m1 m2 : file_mutex) (st1 st2 : state L) :
  objs st1 !! r1 = Some m1 → objs st2 !! r2 = Some m2 →
  m_file_lock m1 = m_file_lock m2 → os st1 = os st2 →
  (invoke c r1 st1).1 = (invoke c r2 st2).1 ∧
  os (invoke c r1 st1).2 = os (invoke c r2 st2).2.
Proof.
  intros H1 H2 Hfl Hos.
  rewrite (invoke_delegates c r1 m1 st1 H1).
  rewrite (invoke_delegates c r2 m2 st2 H2).
  simpl. by rewrite Hfl, Hos.
Qed.

(** C3: on an existing instance, each of the eight locking members is
    exactly the [file_lock] operation of the same name on the instance's
    [m_file_lock]: it returns (or throws, or blocks) as the primitive does,
    leaves the lock state the primitive leaves, and changes neither the
    objects, the files nor the descriptor table. *)
Theorem locking_members_delegate (r : ref) (m : file_mutex) (st : state L) :
  objs st !! r = Some m →
  delegates (lock r) (fun fds => fl_lock fds (m_file_lock m)) st ∧
  delegates (try_lock r) (fun fds => fl_try_lock fds (m_file_lock m)) st ∧
  (∀ t, delegates (timed_lock r t)
          (fun fds => fl_timed_lock t fds (m_file_lock m)) st) ∧
  delegates (unlock r) (fun fds => fl_unlock fds (m_file_lock m)) st ∧
  delegates (lock_sharable r)
    (fun fds => fl_lock_sharable fds (m_file_lock m)) st ∧
  delegates (try_lock_sharable r)
    (fun fds => fl_try_lock_sharable fds (m_file_lock m)) st ∧
  (∀ t, delegates (timed_lock_sharable r t)
          (fun fds => fl_timed_lock_sharable t fds (m_file_lock m)) st) ∧
  delegates (unlock_sharable r)
    (fun fds => fl_unlock_sharable fds (m_file_lock m)) st.
Proof.
  intros Hr.
  split; [exact (forward_delegates r m st (fun fl fds => fl_lock fds fl) Hr)|].
  split; [exact (forward_delegates r m st
                   (fun fl fds => fl_try_lock fds fl) Hr)|].
  split; [intros t; exact (forward_delegates r m st
                   (fun fl fds => fl_timed_lock t fds fl) Hr)|].
  split; [exact (forward_delegates r m st
                   (fun fl fds => fl_unlock fds fl) Hr)|].
  split; [exact (forward_delegates r m st
                   (fun fl fds => fl_lock_sharable fds fl) Hr)|].
  split; [exact (forward_delegates r m st
                   (fun fl fds => fl_try_lock_sharable fds fl) Hr)|].
  split; [intros t; exact (forward_delegates r m st
                   (fun fl fds => fl_timed_lock_sharable t fds fl) Hr)|].
  exact (forward_delegates r m st (fun fl fds => fl_unlock_sharable fds fl) Hr).
Qed.

(** C6: a timed acquisition on an instance that owns handle [h] reports
    [true] only with the claim held through [h] afterwards, and when it
    reports [false] nobody's ownership has changed; so for a caller that
    did not hold the claim, [true] is returned exactly when the claim was
    acquired and [false] never comes with ownership.  The same for the
    sharable variant. *)
Theorem timed_lock_reports_acquisition `{!TimedLockContract L}
    (r : ref) (h : handle) (t : ptime) (b : bool) (st st' : state L) :
  owns st r h →
  (timed_lock r t st = (Ret b, st') →
     (b = true → holds_exclusive h (w_locks (os st')) = true) ∧
     (b = false →
        ∀ h', holds_exclusive h' (w_locks (os st'))
                = holds_exclusive h' (w_locks (os st)) ∧
              holds_sharable h' (w_locks (os st'))
                = holds_sharable h' (w_locks (os st))) ∧
     (holds_exclusive h (w_locks (os st)) = false →
        (b = true ↔ holds_exclusive h (w_locks (os st')) = true))) ∧
  (timed_lock_sharable r t st = (Ret b, st') →
     (b = true → holds_sharable h (w_locks (os st')) = true) ∧
     (b = false →
        ∀ h', holds_exclusive h' (w_locks (os st'))
                = holds_exclusive h' (w_locks (os st)) ∧
              holds_sharable h' (w_locks (os st'))
                = holds_sharable h' (w_locks (os st))) ∧
     (holds_sharable h (w_locks (os st)) = false →
        (b = true ↔ holds_sharable h (w_locks (os st')) = true))).
Proof.
  intros (m & Hr & Hh).
  destruct m as [[hnd]]; simpl in Hh; subst hnd.
  split; intros Hcall.
  - pose proof (forward_delegates r _ st
      (fun fl fds => fl_timed_lock t fds fl) Hr) as Hd.
    unfold delegates in Hd. fold (timed_lock r t) in Hd.
    rewrite Hcall in Hd. simpl in Hd.
    destruct (fl_timed_lock t (w_open (os st)) {| m_file_hnd := Some h |}
                (w_locks (os st))) as [o l'] eqn:Hprim.
    simpl in Hd. injection Hd as <- ->. simpl.
    assert (Htrue : b = true → holds_exclusive h l' = true).
    { intros ->. by eapply timed_lock_true. }
    assert (Hfalse : b = false →
              ∀ h', holds_exclusive h' l'
                      = holds_exclusive h' (w_locks (os st)) ∧
                    holds_sharable h' l'
                      = holds_sharable h' (w_locks (os st))).
    { intros ->. by eapply timed_lock_false. }
    split; [done|]. split; [done|].
    intros Hbefore. split; [done|].
    intros Hafter. destruct b; [done|].
    destruct (Hfalse eq_refl h) as [He _]. congruence.
  - pose proof (forward_delegates r _ st
      (fun fl fds => fl_timed_lock_sharable t fds fl) Hr) as Hd.
    unfold delegates in Hd. fold (timed_lock_sharable r t) in Hd.
    rewrite Hcall in Hd. simpl in Hd.
    destruct (fl_timed_lock_sharable t (w_open (os st))
                {| m_file_hnd := Some h |} (w_locks (os st)))
      as [o l'] eqn:Hprim.
    simpl in Hd. injection Hd as <- ->. simpl.
    assert (Htrue : b = true → holds_sharable h l' = true).
    { intros ->. by eapply timed_lock_sharable_true. }
    assert (Hfalse : b = false →
              ∀ h', holds_exclusive h' l'
                      = holds_exclusive h' (w_locks (os st)) ∧
                    holds_sharable h' l'
                      = holds_sharable h' (w_locks (os st))).
    { intros ->. by eapply timed_lock_sharable_false. }
    split; [done|]. split; [done|].
    intros Hbefore. split; [done|].
    intros Hafter. destruct b; [done|].
    destruct (Hfalse eq_refl h) as [_ He]. congruence.
Qed.

End Locking.

(** ** The reference facility meets the timed contract *)

Lemma ref_timed_acquire_true (want : RefLocks.claim) (t : ptime)
    (fds : gmap nat string) (h : nat) (l l' : gmap nat RefLocks.claim) :
  RefLocks.timed_acquire want t fds {| m_file_hnd := Some h |} l
    = (Ret true, l') →
  RefLocks.holds want h l' = true.
Proof.
  unfold RefLocks.timed_acquire, RefLocks.try_acquire, RefLocks.valid_handle.
  simpl. destruct (fds !! h); simpl; [|discriminate].
  destruct (RefLocks.contended _ fds h l); [discriminate|].
  intros [= <-]. unfold RefLocks.holds.
  apply bool_decide_eq_true. apply lookup_insert_eq.
Qed.

Lemma ref_timed_acquire_false (want : RefLocks.claim) (t : ptime)
    (fds : gmap nat string) (h : nat) (l l' : gmap nat RefLocks.claim) :
  RefLocks.timed_acquire want t fds {| m_file_hnd := Some h |} l
    = (Ret false, l') →
  ∀ h', RefLocks.holds RefLocks.Exclusive h' l'
          = RefLocks.holds RefLocks.Exclusive h' l ∧
        RefLocks.holds RefLocks.Sharable h' l'
          = RefLocks.holds RefLocks.Sharable h' l.
Proof.
  unfold RefLocks.timed_acquire, RefLocks.try_acquire, RefLocks.valid_handle.
  simpl. destruct (fds !! h); simpl; [|discriminate].
  destruct (RefLocks.contended _ fds h l); [|discriminate].
  by intros [= <-].
Qed.

#[global] Instance ref_contract : TimedLockContract (gmap nat RefLocks.claim) :=
  {| holds_exclusive := RefLocks.holds RefLocks.Exclusive;
     holds_sharable := RefLocks.holds RefLocks.Sharable;
     timed_lock_true := ref_timed_acquire_true RefLocks.Exclusive;
     timed_lock_false := ref_timed_acquire_false RefLocks.Exclusive;
     timed_lock_sharable_true := ref_timed_acquire_true RefLocks.Sharable;
     timed_lock_sharable_false := ref_timed_acquire_false RefLocks.Sharable |}.

Lemma locking_members_delegate_witness :
  delegates (try_lock 0)
    (fun fds => fl_try_lock fds {| m_file_hnd := Some 0 |}) two_instances ∧
  try_lock 0 two_instances
    = (Ret true,
       with_os (fun w => {| w_files := w_files w; w_denied := w_denied w;
                            w_open := w_open w;
                            w_locks := {[ 0 := RefLocks.Exclusive ]} |})
         two_instances).
Proof.
  split.
  - apply (locking_members_delegate 0
             {| m_file_lock := {| m_file_hnd := Some 0 |} |} two_instances).
    vm_compute; reflexivity.
  - vm_compute; reflexivity.
Defined.

Lemma timed_lock_reports_acquisition_witness :
  (timed_lock 0 5 two_instances).1 = Ret true ∧
  holds_exclusive 0 (w_locks (os (timed_lock 0 5 two_instances).2)) = true ∧
  (timed_lock 1 5 (timed_lock 0 5 two_instances).2).1 = Ret false ∧
  holds_exclusive 1
    (w_locks (os (timed_lock 1 5 (timed_lock 0 5 two_instances).2).2))
    = false.
Proof.
  split; [vm_compute; reflexivity|]. split.
  - destruct (timed_lock_reports_acquisition 0 0 5 true two_instances
                (timed_lock 0 5 two_instances).2)
      as [(Hacquired & _) _].
    + eexists. split; vm_compute; reflexivity.
    + vm_compute; reflexivity.
    + by apply Hacquired.
  - split; [vm_compute; reflexivity|].
    destruct (timed_lock_reports_acquisition 1 1 5 false
                (timed_lock 0 5 two_instances).2
                (timed_lock 1 5 (timed_lock 0 5 two_instances).2).2)
      as [(_ & Hsame & _) _].
    + eexists. split; vm_compute; reflexivity.
    + vm_compute; reflexivity.
    + destruct (Hsame eq_refl 1) as [-> _]. vm_compute; reflexivity.
Defined.

Section Swap.
Context {L : Type} `{!FileLockApi L}.

Lemma file_mutex_eta (m : file_mutex) : {| m_file_lock := m_file_lock m |} = m.
Proof. by destruct m. Qed.

Lemma state_eta (st : state L) : {| objs := objs st; os := os st |} = st.
Proof. by destruct st. Qed.

(** On two existing instances [swap] returns, and the objects it leaves
    are the old ones with the two entries exchanged. *)
Lemma swap_live (a b : ref) (ma mb : file_mutex) (st : state L) :
  objs st !! a = Some ma → objs st !! b = Some mb →
  swap a b st = (Ret (), with_objs (fun o => <[b := ma]> (<[a := mb]> o)) st).
Proof.
  intros Ha Hb. unfold swap, file_lock_swap. call_unfold.
  unfold deref. rewrite Ha, Hb.
  unfold assign at 1. rewrite Ha.
  unfold assign, with_objs. simpl.
  rewrite !file_mutex_eta.
  destruct (decide (a = b)) as [->|Hne].
  - by rewrite lookup_insert_eq.
  - rewrite lookup_insert_ne by done. by rewrite Hb.
Qed.

(** When one of the two does not exist it is undefined and changes
    nothing. *)
Lemma swap_dangling (a b : ref) (st : state L) :
  objs st !! a = None ∨ objs st !! b = None →
  swap a b st = (Undefined, st).
Proof.
  intros Hd. unfold swap, file_lock_swap. call_unfold. unfold deref.
  destruct (objs st !! a); [|done].
  destruct Hd as [|Hb]; [done|]. by rewrite Hb.
Qed.

Lemma swap_objs_lookup (a b r : ref) (ma mb : file_mutex)
    (o : gmap nat file_mutex) :
  o !! a = Some ma → o !! b = Some mb →
  <[b := ma]> (<[a := mb]> o) !! r =
    o !! (if decide (r = a) then b else if decide (r = b) then a else r).
Proof.
  intros Ha Hb.
  destruct (decide (r = b)) as [->|Hrb].
  - rewrite lookup_insert_eq. case_decide; [by subst|done].
  - rewrite lookup_insert_ne by done.
    destruct (decide (r = a)) as [->|Hra].
    + by rewrite lookup_insert_eq.
    + by rewrite lookup_insert_ne.
Qed.

(** C10: [swap a b] on two existing instances exchanges what the two
    instances hold and changes nothing else, neither another object nor
    the operating system; swapping again restores the state, and swapping
    an instance with itself leaves the state as it was. *)
Theorem swap_exchanges_handles (a b : ref) (ma mb : file_mutex)
    (st : state L) :
  objs st !! a = Some ma → objs st !! b = Some mb →
  ∃ st',
    swap a b st = (Ret (), st') ∧
    objs st' !! a = Some mb ∧
    objs st' !! b = Some ma ∧
    (∀ r, r ≠ a → r ≠ b → objs st' !! r = objs st !! r) ∧
    os st' = os st ∧
    swap a b st' = (Ret (), st) ∧
    (a = b → st' = st).
Proof.
  intros Ha Hb. eexists. split; [by apply swap_live|].
  assert (Ha' : <[b := ma]> (<[a := mb]> (objs st)) !! a = Some mb).
  { rewrite (swap_objs_lookup a b a ma mb) by done.
    by rewrite decide_True. }
  assert (Hb' : <[b := ma]> (<[a := mb]> (objs st)) !! b = Some ma).
  { rewrite (swap_objs_lookup a b b ma mb) by done.
    case_decide; [by subst|]. by rewrite decide_True. }
  simpl. split; [done|]. split; [done|].
  split; [intros r Hra Hrb; by rewrite !lookup_insert_ne|].
  split; [done|]. split.
  - rewrite (swap_live a b mb ma) by done.
    f_equal. rewrite <- (state_eta st) at 2. unfold with_objs. simpl.
    f_equal. apply map_eq. intros r.
    destruct (decide (r = b)) as [->|Hrb];
      [by rewrite lookup_insert_eq|rewrite lookup_insert_ne by done].
    destruct (decide (r = a)) as [->|Hra];
      [by rewrite lookup_insert_eq|rewrite lookup_insert_ne by done].
    by rewrite !lookup_insert_ne.
  - intros <-. rewrite <- (state_eta st) at 2. unfold with_objs.
    f_equal. assert (ma = mb) as <- by congruence.
    rewrite insert_insert_eq. by apply insert_id.
Qed.

End Swap.

Lemma swap_exchanges_handles_witness :
  ∃ st',
    swap 0 1 two_instances = (Ret (), st') ∧
    objs st' !! 0 = Some {| m_file_lock := {| m_file_hnd := Some 1 |} |} ∧
    objs st' !! 1 = Some {| m_file_lock := {| m_file_hnd := Some 0 |} |} ∧
    (∀ r, r ≠ 0 → r ≠ 1 → objs st' !! r = objs two_instances !! r) ∧
    os st' = os two_instances ∧
    swap 0 1 st' = (Ret (), two_instances) ∧
    (0 = 1 → st' = two_instances).
Proof.
  apply (swap_exchanges_handles 0 1
           {| m_file_lock := {| m_file_hnd := Some 0 |} |}
           {| m_file_lock := {| m_file_hnd := Some 1 |} |} two_instances);
    vm_compute; reflexivity.
Defined.

Section Moves.
Context {L : Type} `{!FileLockApi L}.

Lemma live_not_fresh (o : gmap nat file_mutex) (r : ref) :
  is_Some (o !! r) → r ≠ fresh (dom o).
Proof.
  intros Hr ->. rewrite fresh_ref_unused in Hr. by destruct Hr.
Qed.

(** Move construction from an existing instance: the new object holds what
    the source held and the source is left empty. *)
Lemma move_ctor_live (a : ref) (ma : file_mutex) (st : state L) :
  objs st !! a = Some ma →
  file_mutex_move_ctor a st =
    (Ret (fresh (dom (objs st))),
     with_objs (fun o => <[a := empty_mutex]> (<[fresh (dom o) := ma]> o)) st).
Proof.
  intros Ha. unfold file_mutex_move_ctor. call_unfold.
  unfold new_object. simpl.
  set (tmp := fresh (dom (objs st))).
  assert (Hne : a ≠ tmp) by (apply live_not_fresh; eauto).
  rewrite (swap_live tmp a empty_mutex ma).
  - unfold with_objs. simpl. by rewrite insert_insert_eq.
  - simpl. apply lookup_insert_eq.
  - simpl. by rewrite lookup_insert_ne.
Qed.

(** Destruction of an existing instance whose descriptor, if any, is open:
    the descriptor is closed and the object is gone. *)
Lemma dtor_live (r : ref) (m : file_mutex) (st : state L) :
  objs st !! r = Some m →
  (∀ h, m_file_hnd (m_file_lock m) = Some h →
        is_Some (w_open (os st) !! h)) →
  file_mutex_dtor r st =
    (Ret (), {| objs := delete r (objs st);
                os := released (m_file_lock m) (os st) |}).
Proof.
  intros Hr Hopen. unfold file_mutex_dtor. call_unfold.
  unfold deref. rewrite Hr. unfold file_lock_dtor, released.
  destruct (m_file_hnd (m_file_lock m)) as [h|] eqn:Hh; simpl.
  - unfold close_file. destruct (Hopen h eq_refl) as [p Hp]. by rewrite Hp.
  - reflexivity.
Qed.

(** Destroying an instance whose descriptor is no longer open would release
    it a second time. *)
Lemma dtor_double_release (r : ref) (m : file_mutex) (h : handle)
    (st : state L) :
  objs st !! r = Some m → m_file_hnd (m_file_lock m) = Some h →
  w_open (os st) !! h = None →
  file_mutex_dtor r st = (Undefined, st).
Proof.
  intros Hr Hh Hclosed. unfold file_mutex_dtor. call_unfold.
  unfold deref. rewrite Hr. unfold file_lock_dtor. rewrite Hh.
  unfold close_file. by rewrite Hclosed.
Qed.

Lemma dtor_dangling (r : ref) (st : state L) :
  objs st !! r = None → file_mutex_dtor r st = (Undefined, st).
Proof.
  intros Hr. unfold file_mutex_dtor. call_unfold.
  unfold deref. by rewrite Hr.
Qed.

(** Move assignment between two distinct existing instances, when the
    descriptor the destination held, if any, is open: the destination
    holds what the source held, the source is empty, and the descriptor
    the destination held before is closed. *)
Lemma move_assign_live (this moved : ref) (mt mm : file_mutex)
    (st : state L) :
  objs st !! this = Some mt → objs st !! moved = Some mm →
  this ≠ moved →
  (∀ h, m_file_hnd (m_file_lock mt) = Some h →
        is_Some (w_open (os st) !! h)) →
  file_mutex_move_assign this moved st =
    (Ret (), {| objs := <[this := mm]> (<[moved := empty_mutex]> (objs st));
                os := released (m_file_lock mt) (os st) |}).
Proof.
  intros Ht Hm Hne Hopen. unfold file_mutex_move_assign. call_unfold.
  rewrite (move_ctor_live moved mm st Hm).
  set (tmp := fresh (dom (objs st))).
  assert (Htt : this ≠ tmp) by (apply live_not_fresh; eauto).
  assert (Hmt : moved ≠ tmp) by (apply live_not_fresh; eauto).
  rewrite (swap_live this tmp mt mm).
  - rewrite (dtor_live tmp mt).
    + unfold with_objs. simpl. f_equal. f_equal.
      apply map_eq. intros r.
      destruct (decide (r = tmp)) as [->|Hr].
      * rewrite lookup_delete_eq. rewrite !lookup_insert_ne by done.
        symmetry. apply fresh_ref_unused.
      * rewrite lookup_delete_ne by done.
        rewrite (lookup_insert_ne _ tmp r) by done.
        destruct (decide (r = this)) as [->|Hrt];
          [by rewrite !lookup_insert_eq|].
        rewrite !(lookup_insert_ne _ this r) by done.
        destruct (decide (r = moved)) as [->|Hrm];
          [by rewrite !lookup_insert_eq|].
        rewrite !(lookup_insert_ne _ moved r) by done.
        by rewrite lookup_insert_ne.
    + simpl. apply lookup_insert_eq.
    + simpl. done.
  - unfold with_objs. simpl. fold tmp.
    rewrite lookup_insert_ne by done. by rewrite lookup_insert_ne.
  - unfold with_objs. simpl. fold tmp.
    rewrite lookup_insert_ne by done. apply lookup_insert_eq.
Qed.

(** Under single ownership the descriptor an instance holds is open. *)
Lemma single_owner_open (st : state L) (r : ref) (m : file_mutex) :
  single_owner st → objs st !! r = Some m →
  ∀ h, m_file_hnd (m_file_lock m) = Some h → is_Some (w_open (os st) !! h).
Proof. intros [_ Hopen] Hr h Hh. apply (Hopen r h). by exists m. Qed.

(** C4: when [a] owns handle [h], move-constructing [b] from [a] returns a
    new instance [b] that owns [h] and leaves [a] empty, with every other
    object and the operating system untouched, and every locking call on
    [b] afterwards returns and acts as the same call on [a] would have
    before.  Move-assigning [a] into another existing instance [b] gives
    the same transfer; the handle [b] held before, if any, is closed, and
    every locking call on [b] afterwards is the call [a] would have made
    in that operating-system state. *)
Theorem move_transfers_ownership (a : ref) (h : handle) (st : state L) :
  owns st a h →
  (∃ b st',
     file_mutex_move_ctor a st = (Ret b, st') ∧
     objs st !! b = None ∧
     owns st' b h ∧
     empty_instance st' a ∧
     (∀ r, r ≠ a → r ≠ b → objs st' !! r = objs st !! r) ∧
     os st' = os st ∧
     ∀ c, (invoke c b st').1 = (invoke c a st).1 ∧
          os (invoke c b st').2 = os (invoke c a st).2) ∧
  (∀ b mb, objs st !! b = Some mb → b ≠ a → single_owner st →
   ∃ st',
     file_mutex_move_assign b a st = (Ret (), st') ∧
     owns st' b h ∧
     empty_instance st' a ∧
     (∀ r, r ≠ a → r ≠ b → objs st' !! r = objs st !! r) ∧
     os st' = released (m_file_lock mb) (os st) ∧
     w_open (os st') !! h = w_open (os st) !! h ∧
     ∀ c, (invoke c b st').1
            = (invoke c a (with_os (fun _ => os st') st)).1 ∧
          os (invoke c b st').2
            = os (invoke c a (with_os (fun _ => os st') st)).2).
Proof.
  intros (ma & Ha & Hh). split.
  - eexists _, _. split; [by apply move_ctor_live|].
    assert (Hne : a ≠ fresh (dom (objs st)))
      by (apply live_not_fresh; eauto).
    assert (Hb : <[a := empty_mutex]>
                   (<[fresh (dom (objs st)) := ma]> (objs st))
                   !! fresh (dom (objs st)) = Some ma).
    { rewrite lookup_insert_ne by done. apply lookup_insert_eq. }
    simpl.
    split; [apply fresh_ref_unused|].
    split; [by exists ma|].
    split; [apply lookup_insert_eq|].
    split; [intros r Hra Hrb; by rewrite !lookup_insert_ne|].
    split; [done|].
    intros c. by apply (invoke_same_file_lock c _ _ ma ma).
  - intros b mb Hb Hne Hinv.
    eexists. split.
    { apply (move_assign_live b a mb ma st Hb Ha Hne).
      by apply (single_owner_open st b). }
    assert (Hb' : <[b := ma]> (<[a := empty_mutex]> (objs st)) !! b
                  = Some ma) by apply lookup_insert_eq.
    simpl.
    split; [by exists ma|].
    split; [unfold empty_instance; simpl;
            rewrite lookup_insert_ne by done; apply lookup_insert_eq|].
    split; [intros r Hra Hrb; by rewrite !lookup_insert_ne|].
    split; [done|]. split.
    + unfold released.
      destruct (m_file_hnd (m_file_lock mb)) as [h'|] eqn:Hh'; [|done].
      simpl. apply lookup_delete_ne. intros Heq.
      destruct Hinv as [Hone _]. apply Hne.
      apply (Hone b a h); [exists mb; by rewrite Hh', Heq|by exists ma].
    + intros c. by apply (invoke_same_file_lock c _ _ ma ma).
Qed.

End Moves.

Section Invariant.
Context {L : Type} `{!FileLockApi L}.

Lemma preserves_ret {A} (a : A) : preserves (L:=L) (mret a).
Proof. by intros st Hst. Qed.

Lemma preserves_bind {A B} (m : M L A) (k : A → M L B) :
  preserves m → (∀ a, preserves (k a)) → preserves (m ≫= k).
Proof.
  intros Hm Hk st Hst. specialize (Hm st Hst).
  call_unfold. destruct (m st) as [[a|e| |] st1]; simpl in *; try done.
  by apply Hk.
Qed.

(** Ownership in the new state comes from ownership in the old one through
    an injective renaming of the instances, and owned descriptors stay
    open. *)
Lemma single_owner_transfer (st st' : state L) (f : ref → ref) :
  (∀ r1 r2, f r1 = f r2 → r1 = r2) →
  (∀ r h, owns st' r h → owns st (f r) h) →
  (∀ r h, owns st' r h → is_Some (w_open (os st) !! h) →
          is_Some (w_open (os st') !! h)) →
  single_owner st → single_owner st'.
Proof.
  intros Hinj Hown Hopen [Hone Hop]. split.
  - intros r1 r2 h H1 H2. apply Hinj.
    apply (Hone _ _ h); by apply Hown.
  - intros r h Hr. apply (Hopen r h Hr). apply (Hop (f r)). by apply Hown.
Qed.

Lemma single_owner_same (st st' : state L) :
  objs st' = objs st → w_open (os st') = w_open (os st) →
  single_owner st → single_owner st'.
Proof.
  intros Ho Hw. apply (single_owner_transfer st st' id); [done| |].
  - intros r h. unfold owns. by rewrite Ho.
  - intros r h _. by rewrite Hw.
Qed.

Lemma single_owner_init (w : os_world L) : single_owner (init w).
Proof.
  split; intros r; intros; unfold owns, init in *; simpl in *;
    repeat match goal with
    | H : ∃ _, ∅ !! _ = Some _ ∧ _ |- _ =>
        destruct H as (? & H & _); by rewrite lookup_empty in H
    end.
Qed.

Lemma new_empty_preserves :
  preserves (L:=L) (new_object {| m_file_lock := file_lock_default |}).
Proof.
  intros st. apply (single_owner_transfer _ _ id); [done| |done].
  intros r h (m & Hr & Hh). simpl in Hr.
  destruct (decide (r = fresh (dom (objs st)))) as [->|Hne].
  - rewrite lookup_insert_eq in Hr. injection Hr as <-. discriminate.
  - rewrite lookup_insert_ne in Hr by done. by exists m.
Qed.

Lemma swap_preserves (a b : ref) : preserves (L:=L) (swap a b).
Proof.
  intros st.
  destruct (objs st !! a) as [ma|] eqn:Ha;
    [|rewrite swap_dangling by (by left); done].
  destruct (objs st !! b) as [mb|] eqn:Hb;
    [|rewrite swap_dangling by (by right); done].
  rewrite (swap_live a b ma mb) by done. simpl.
  apply (single_owner_transfer _ _
           (fun r => if decide (r = a) then b
                     else if decide (r = b) then a else r)).
  - intros r1 r2. repeat case_decide; congruence.
  - intros r h (m & Hr & Hh). exists m. split; [|done].
    simpl in Hr. by rewrite (swap_objs_lookup a b r ma mb) in Hr.
  - done.
Qed.

Lemma dtor_preserves (r : ref) :
  preserves (L:=L) (file_mutex_dtor r).
Proof.
  intros st Hst.
  destruct (objs st !! r) as [m|] eqn:Hr;
    [|by rewrite dtor_dangling].
  rewrite (dtor_live r m) by (done || by apply (single_owner_open st r)).
  simpl. pose proof Hst as [Hone _]. revert Hst.
  apply (single_owner_transfer _ _ id); [done| |].
  - intros r' h (m' & Hr' & Hh'). simpl in Hr'.
    apply lookup_delete_Some in Hr' as [_ Hr']. by exists m'.
  - intros r' h (m' & Hr' & Hh') Hopen. simpl in *.
    apply lookup_delete_Some in Hr' as [Hne Hr'].
    unfold released.
    destruct (m_file_hnd (m_file_lock m)) as [hr|] eqn:Hhr; [|done].
    simpl. rewrite lookup_delete_ne; [done|].
    intros ->. apply Hne.
    apply (Hone r r' h); [by exists m|by exists m'].
Qed.

Lemma move_ctor_preserves (a : ref) :
  preserves (L:=L) (file_mutex_move_ctor a).
Proof.
  apply preserves_bind; [apply new_empty_preserves|].
  intros this. apply preserves_bind; [apply swap_preserves|].
  intros _. apply preserves_ret.
Qed.

Lemma move_assign_preserves (this moved : ref) :
  preserves (L:=L) (file_mutex_move_assign this moved).
Proof.
  apply preserves_bind; [apply move_ctor_preserves|].
  intros tmp. apply preserves_bind; [apply swap_preserves|].
  intros _. apply dtor_preserves.
Qed.

Lemma ctor_preserves (p suffix : path) :
  preserves (L:=L) (file_mutex_ctor p suffix).
Proof.
  intros st [Hone Hop].
  destruct (decide (build_file_lock_path p suffix ∈ w_denied (os st)))
    as [Hd|Hd].
  { by rewrite file_mutex_ctor_denied. }
  rewrite file_mutex_ctor_ok by done. simpl.
  set (r0 := fresh (dom (objs st))).
  set (fd := fresh (dom (w_open (os st)))).
  assert (Hold : ∀ r h,
            owns {| objs := <[r0 := {| m_file_lock :=
                                         {| m_file_hnd := Some fd |} |}]>
                              (objs st);
                    os := os st |} r h →
            (r = r0 ∧ h = fd) ∨ (r ≠ r0 ∧ h ≠ fd ∧ owns st r h)).
  { intros r h (m & Hr & Hh). simpl in Hr.
    destruct (decide (r = r0)) as [->|Hne].
    - rewrite lookup_insert_eq in Hr. injection Hr as <-.
      injection Hh as <-. by left.
    - rewrite lookup_insert_ne in Hr by done. right.
      assert (Ho : owns st r h) by (by exists m).
      split; [done|]. split; [|done].
      intros ->. destruct (Hop r fd Ho) as [q Hq].
      unfold fd in Hq. by rewrite fresh_fd_unused in Hq. }
  split.
  - intros r1 r2 h H1 H2.
    apply Hold in H1 as [[-> ->]|(Hn1 & Hf1 & H1)];
      apply Hold in H2 as [[-> Hf2]|(Hn2 & Hf2 & H2)];
      try done. by apply (Hone r1 r2 h).
  - intros r h Hr. simpl.
    apply Hold in Hr as [[-> ->]|(Hn & Hf & Hr)].
    + rewrite lookup_insert_eq. eauto.
    + rewrite lookup_insert_ne by done. by apply (Hop r).
Qed.

Lemma invoke_preserves (c : locking_call) (r : ref) :
  preserves (L:=L) (invoke c r).
Proof.
  intros st.
  destruct (objs st !! r) as [m|] eqn:Hr.
  - rewrite (invoke_delegates c r m st Hr). simpl.
    by apply single_owner_same.
  - by rewrite invoke_dangling.
Qed.

Lemma remove_preserves (p : path) : preserves (L:=L) (remove p).
Proof.
  intros st. apply single_owner_same; apply filesystem_remove_frame.
Qed.

(** Every member preserves single ownership. *)
Lemma run_op_preserves (o : op) : preserves (L:=L) (run_op o).
Proof.
  destruct o; simpl.
  - apply preserves_bind; [apply new_empty_preserves|].
    intros _. apply preserves_ret.
  - apply preserves_bind; [apply ctor_preserves|].
    intros _. apply preserves_ret.
  - apply preserves_bind; [apply move_ctor_preserves|].
    intros _. apply preserves_ret.
  - apply move_assign_preserves.
  - apply swap_preserves.
  - apply preserves_bind; [apply invoke_preserves|].
    intros _. apply preserves_ret.
  - apply preserves_bind; [apply remove_preserves|].
    intros _. apply preserves_ret.
  - apply dtor_preserves.
Qed.

Lemma exec_preserves (ops : list op) (st : state L) :
  single_owner st → single_owner (exec ops st).
Proof.
  revert st. induction ops as [|o ops IH]; intros st Hst; [done|].
  simpl. apply IH. by apply run_op_preserves.
Qed.

(** Move-assigning an existing instance to itself changes nothing. *)
Lemma move_assign_self (a : ref) (ma : file_mutex) (st : state L) :
  objs st !! a = Some ma → file_mutex_move_assign a a st = (Ret (), st).
Proof.
  intros Ha. unfold file_mutex_move_assign. call_unfold.
  rewrite (move_ctor_live a ma st Ha).
  set (tmp := fresh (dom (objs st))).
  assert (Hne : a ≠ tmp) by (apply live_not_fresh; eauto).
  rewrite (swap_live a tmp empty_mutex ma).
  - rewrite (dtor_live tmp empty_mutex).
    + unfold with_objs, released. simpl. f_equal.
      transitivity {| objs := objs st; os := os st |}; [|apply state_eta].
      f_equal. apply map_eq. intros r.
      destruct (decide (r = tmp)) as [->|Hr].
      * rewrite lookup_delete_eq. symmetry. apply fresh_ref_unused.
      * rewrite lookup_delete_ne by done.
        rewrite (lookup_insert_ne _ tmp r) by done.
        destruct (decide (r = a)) as [->|Hra];
          [by rewrite lookup_insert_eq|].
        rewrite !(lookup_insert_ne _ a r) by done.
        by rewrite lookup_insert_ne.
    + simpl. apply lookup_insert_eq.
    + intros h. discriminate.
  - unfold with_objs. simpl. apply lookup_insert_eq.
  - unfold with_objs. simpl. fold tmp.
    rewrite lookup_insert_ne by done. apply lookup_insert_eq.
Qed.

(** Under single ownership no member other than a forwarded locking call
    is undefined on existing instances: in particular no destruction and
    no move assignment closes a descriptor that is not open. *)
Lemma run_op_defined (o : op) (st : state L) :
  single_owner st → op_live st o → (∀ c r, o ≠ op_locking c r) →
  (run_op o st).1 ≠ Undefined.
Proof.
  intros Hst Hlive Hnl.
  destruct o as [|p sfx|moved|this moved|this other|c this|p|this];
    simpl in *.
  - by call_unfold.
  - call_unfold.
    destruct (decide (build_file_lock_path p sfx ∈ w_denied (os st))).
    + by rewrite file_mutex_ctor_denied.
    + by rewrite file_mutex_ctor_ok.
  - destruct Hlive as [m Hm]. call_unfold.
    by rewrite (move_ctor_live moved m).
  - destruct Hlive as [[mt Ht] [mm Hm]].
    destruct (decide (this = moved)) as [->|Hne].
    + by rewrite (move_assign_self moved mm).
    + rewrite (move_assign_live this moved mt mm); [done..|].
      by apply (single_owner_open st this).
  - destruct Hlive as [[mt Ht] [mo Ho]].
    by rewrite (swap_live this other mt mo).
  - by destruct (Hnl c this).
  - call_unfold. unfold remove.
    destruct (filesystem_remove_cases p st)
      as [(_ & ->)|[(_ & _ & ->)|(_ & _ & ->)]]; done.
  - destruct Hlive as [m Hm].
    rewrite (dtor_live this m); [done..|].
    by apply (single_owner_open st this).
Qed.

(** C5: in every state a program reaches from a start without instances,
    by any sequence of constructions, moves, swaps, locking calls, removals
    and destructions (there is no copy among the members), no descriptor is
    owned by two instances and every owned descriptor is open; and from
    such a state no call on existing instances releases a descriptor that
    is not open, so no handle is released twice. *)
Theorem single_owner_invariant (w : os_world L) (ops : list op) :
  single_owner (exec ops (init w)) ∧
  (∀ r1 r2 h,
     owns (exec ops (init w)) r1 h → owns (exec ops (init w)) r2 h →
     r1 = r2) ∧
  (∀ o, op_live (exec ops (init w)) o →
        (∀ c r, o ≠ op_locking c r) →
        (run_op o (exec ops (init w))).1 ≠ Undefined) ∧
  (∀ o, single_owner (run_op o (exec ops (init w))).2).
Proof.
  assert (Hst : single_owner (exec ops (init w)))
    by apply exec_preserves, single_owner_init.
  split; [done|]. split; [apply Hst|].
  split; [intros o; by apply run_op_defined|].
  intros o. by apply run_op_preserves.
Qed.

End Invariant.

Lemma single_owner_invariant_witness :
  single_owner two_instances ∧
  (run_op (op_dtor 0) two_instances).1 ≠ Undefined ∧
  (run_op (op_move_assign 1 0) two_instances).1 ≠ Undefined.
Proof.
  destruct (single_owner_invariant RefLocks.w_empty
              [op_ctor "a" ".lock"; op_ctor "a" ".lock"])
    as (Hinv & _ & Hdef & _).
  split; [exact Hinv|]. split.
  - apply (Hdef (op_dtor 0)); [|discriminate].
    eexists. vm_compute; reflexivity.
  - apply (Hdef (op_move_assign 1 0)); [|discriminate].
    split; eexists; vm_compute; reflexivity.
Defined.

Lemma move_transfers_ownership_witness :
  (∃ b st',
     file_mutex_move_ctor 0 two_instances = (Ret b, st') ∧
     objs two_instances !! b = None ∧
     owns st' b 0 ∧
     empty_instance st' 0 ∧
     (∀ r, r ≠ 0 → r ≠ b → objs st' !! r = objs two_instances !! r) ∧
     os st' = os two_instances ∧
     ∀ c, (invoke c b st').1 = (invoke c 0 two_instances).1 ∧
          os (invoke c b st').2 = os (invoke c 0 two_instances).2) ∧
  (∃ st',
     file_mutex_move_assign 1 0 two_instances = (Ret (), st') ∧
     owns st' 1 0 ∧
     empty_instance st' 0 ∧
     (∀ r, r ≠ 0 → r ≠ 1 → objs st' !! r = objs two_instances !! r) ∧
     os st' = released {| m_file_hnd := Some 1 |} (os two_instances) ∧
     w_open (os st') !! 0 = w_open (os two_instances) !! 0 ∧
     ∀ c, (invoke c 1 st').1
            = (invoke c 0 (with_os (fun _ => os st') two_instances)).1 ∧
          os (invoke c 1 st').2
            = os (invoke c 0 (with_os (fun _ => os st') two_instances)).2).
Proof.
  assert (Howns : owns two_instances 0 0).
  { eexists. split; vm_compute; reflexivity. }
  destruct (move_transfers_ownership 0 0 two_instances Howns)
    as [Hctor Hassign].
  split; [exact Hctor|].
  apply (Hassign 1 {| m_file_lock := {| m_file_hnd := Some 1 |} |}).
  - vm_compute; reflexivity.
  - discriminate.
  - apply (exec_preserves [op_ctor "a" ".lock"; op_ctor "a" ".lock"]).
    apply single_owner_init.
Defined.

(** * Further properties of the members *)

Section LockPath.
Context {L : Type} `{!FileLockApi L}.

Lemma length_build_file_lock_path (p suffix : path) :
  String.length (build_file_lock_path p suffix)
    = String.length p + String.length suffix.
Proof.
  unfold build_file_lock_path.
  induction p as [|a p IH]; simpl; [done|]. by rewrite IH.
Qed.

Lemma build_file_lock_path_cancel_suffix (p p' suffix : path) :
  build_file_lock_path p suffix = build_file_lock_path p' suffix → p = p'.
Proof.
  revert p'. induction p as [|a p IH]; intros [|a' p'] Heq.
  - done.
  - apply (f_equal String.length) in Heq.
    rewrite (length_build_file_lock_path (String a' p')) in Heq.
    simpl in Heq. lia.
  - apply (f_equal String.length) in Heq.
    rewrite (length_build_file_lock_path (String a p)) in Heq.
    simpl in Heq. lia.
  - unfold build_file_lock_path in *. simpl in Heq.
    injection Heq as -> Heq. f_equal. by apply IH.
Qed.

Lemma build_file_lock_path_empty_suffix (p : path) :
  build_file_lock_path p "" = p.
Proof.
  unfold build_file_lock_path.
  induction p as [|a p IH]; [done|].
  change (String a (p +:+ "") = String a p). by f_equal.
Qed.

(** X1: the lock-file path identifies the target once the suffix is fixed
    and the suffix once the target is fixed, but it keeps no trace of where
    the target ends: moving a piece from the end of the target to the front
    of the suffix gives the same lock file. *)
Theorem lock_path_injective (p p' suffix suffix' x : path) :
  (build_file_lock_path p suffix = build_file_lock_path p' suffix →
     p = p') ∧
  (build_file_lock_path p suffix = build_file_lock_path p suffix' →
     suffix = suffix') ∧
  build_file_lock_path (p +:+ x) suffix
    = build_file_lock_path p (x +:+ suffix) ∧
  String.length (build_file_lock_path p suffix)
    = String.length p + String.length suffix.
Proof.
  split; [apply build_file_lock_path_cancel_suffix|].
  split; [apply (String.app_inj p)|].
  split; [|apply length_build_file_lock_path].
  unfold build_file_lock_path.
  induction p as [|a p IH]; [done|].
  change (String a ((p +:+ x) +:+ suffix) = String a (p +:+ x +:+ suffix)).
  by f_equal.
Qed.

(** X2: with a non-empty suffix a construction neither changes the target
    file nor binds its handle to it; with the empty suffix the lock file is
    the target file itself, and a construction that is not refused then
    binds the handle to the target and keeps what the target holds. *)
Theorem ctor_and_the_target_file (p suffix : path) (st : state L) :
  (suffix ≠ "" →
     w_files (os (file_mutex_ctor p suffix st).2) !! p
       = w_files (os st) !! p ∧
     ∀ r h, (file_mutex_ctor p suffix st).1 = Ret r →
            owns (file_mutex_ctor p suffix st).2 r h →
            w_open (os (file_mutex_ctor p suffix st).2) !! h ≠ Some p) ∧
  (suffix = "" → p ∉ w_denied (os st) →
     ∃ r h,
       (file_mutex_ctor p suffix st).1 = Ret r ∧
       owns (file_mutex_ctor p suffix st).2 r h ∧
       w_open (os (file_mutex_ctor p suffix st).2) !! h = Some p ∧
       ∀ c, w_files (os st) !! p = Some c →
            w_files (os (file_mutex_ctor p suffix st).2) !! p = Some c).
Proof.
  split.
  - intros Hs.
    pose proof (build_file_lock_path_ne p suffix Hs) as Hne.
    destruct (decide (build_file_lock_path p suffix ∈ w_denied (os st)))
      as [Hd|Hd].
    + rewrite (file_mutex_ctor_denied _ _ _ Hd). simpl.
      split; [done|]. by intros r h.
    + rewrite (file_mutex_ctor_ok _ _ _ Hd). simpl. split.
      * destruct (w_files (os st) !! build_file_lock_path p suffix);
          [done|]. by rewrite lookup_insert_ne.
      * intros r h [= <-] (m & Hm & Hh). simpl in Hm.
        rewrite lookup_insert_eq in Hm. injection Hm as <-.
        injection Hh as <-. rewrite lookup_insert_eq. congruence.
  - intros -> Hd.
    assert (Hd' : build_file_lock_path p "" ∉ w_denied (os st))
      by (by rewrite build_file_lock_path_empty_suffix).
    rewrite (file_mutex_ctor_ok _ _ _ Hd'). simpl.
    rewrite build_file_lock_path_empty_suffix.
    eexists _, _. split; [done|].
    split; [eexists; split; [apply lookup_insert_eq|done]|].
    split; [apply lookup_insert_eq|].
    intros c Hc. by rewrite Hc.
Qed.

End LockPath.

Lemma lock_path_injective_witness :
  "a" = "a" ∧ ".lock" = ".lock".
Proof.
  split.
  - apply (lock_path_injective "a" "a" ".lock" ".lock" ""). reflexivity.
  - apply (lock_path_injective "a" "a" ".lock" ".lock" ""). reflexivity.
Defined.

Lemma ctor_and_the_target_file_witness :
  w_files (os (file_mutex_ctor "a" ".lock" (init RefLocks.w0)).2) !! "a"
    = Some [Byte.x61] ∧
  ∃ r h,
    (file_mutex_ctor "a" "" (init RefLocks.w0)).1 = Ret r ∧
    owns (file_mutex_ctor "a" "" (init RefLocks.w0)).2 r h ∧
    w_open (os (file_mutex_ctor "a" "" (init RefLocks.w0)).2) !! h
      = Some "a" ∧
    ∀ c, w_files RefLocks.w0 !! "a" = Some c →
         w_files (os (file_mutex_ctor "a" "" (init RefLocks.w0)).2) !! "a"
           = Some c.
Proof.
  split.
  - destruct (ctor_and_the_target_file "a" ".lock" (init RefLocks.w0))
      as [Hleft _].
    destruct Hleft as [-> _]; [discriminate|]. vm_compute; reflexivity.
  - destruct (ctor_and_the_target_file "a" "" (init RefLocks.w0))
      as [_ Hself].
    apply Hself; [reflexivity|]. simpl. apply not_elem_of_empty.
Defined.

Section Lifecycle.
Context {L : Type} `{!FileLockApi L}.

(** A construction that returns was not refused. *)
Lemma file_mutex_ctor_returns (p suffix : path) (st st1 : state L)
    (r : ref) :
  file_mutex_ctor p suffix st = (Ret r, st1) →
  build_file_lock_path p suffix ∉ w_denied (os st).
Proof.
  intros Hc Hd. rewrite (file_mutex_ctor_denied _ _ _ Hd) in Hc.
  discriminate.
Qed.

(** X3: default construction always returns a new, empty instance and
    touches neither another object nor the operating system; destroying
    that instance closes nothing and gives back the state from before the
    construction. *)
Theorem default_ctor_dtor_round_trip (st : state L) :
  ∃ r st1,
    file_mutex_default st = (Ret r, st1) ∧
    objs st !! r = None ∧
    empty_instance st1 r ∧
    (∀ r', r' ≠ r → objs st1 !! r' = objs st !! r') ∧
    os st1 = os st ∧
    file_mutex_dtor r st1 = (Ret (), st).
Proof.
  eexists _, _. split; [reflexivity|]. simpl.
  split; [apply fresh_ref_unused|].
  split; [apply lookup_insert_eq|].
  split; [intros r' Hr'; by rewrite lookup_insert_ne|].
  split; [done|].
  rewrite (dtor_live _ empty_mutex).
  - unfold released. simpl. f_equal.
    transitivity {| objs := objs st; os := os st |}; [|apply state_eta].
    f_equal. apply delete_insert_id, fresh_ref_unused.
  - simpl. apply lookup_insert_eq.
  - intros h. discriminate.
Qed.

(** X4: a construction never leaves a descriptor behind.  When it throws,
    the exception is [interprocess_exception] and the objects and the open
    descriptors are as before; when it returns, destroying the instance
    succeeds and leaves the objects and the open descriptors exactly as
    they were before the construction, while the lock file stays on disk:
    the destructor closes the handle and deletes nothing. *)
Theorem ctor_dtor_leaves_no_descriptor (p suffix : path) (st : state L) :
  (∀ e st1,
     file_mutex_ctor p suffix st = (Throw e, st1) →
     e = interprocess_exception ∧
     objs st1 = objs st ∧ w_open (os st1) = w_open (os st)) ∧
  (∀ r st1,
     file_mutex_ctor p suffix st = (Ret r, st1) →
     ∃ st2,
       file_mutex_dtor r st1 = (Ret (), st2) ∧
       objs st2 = objs st ∧
       w_open (os st2) = w_open (os st) ∧
       w_files (os st2) = w_files (os st1) ∧
       is_Some (w_files (os st2) !! build_file_lock_path p suffix)).
Proof.
  destruct (decide (build_file_lock_path p suffix ∈ w_denied (os st)))
    as [Hd|Hd].
  { rewrite (file_mutex_ctor_denied _ _ _ Hd).
    split; [by intros e st1 [= <- <-]|]. intros r st1. discriminate. }
  rewrite (file_mutex_ctor_ok _ _ _ Hd).
  split; [intros e st1; discriminate|].
  intros r st1 [= <- <-]. eexists. split.
  { eapply dtor_live.
    - simpl. apply lookup_insert_eq.
    - simpl. intros h [= <-]. rewrite lookup_insert_eq. eauto. }
  unfold released. simpl.
  split; [apply delete_insert_id, fresh_ref_unused|].
  split; [apply delete_insert_id, fresh_fd_unused|].
  split; [done|].
  destruct (w_files (os st) !! build_file_lock_path p suffix) eqn:Hf.
  - rewrite Hf. eauto.
  - rewrite lookup_insert_eq. eauto.
Qed.

(** X5: move-assigning an existing instance to itself returns and leaves
    the whole state unchanged: the handle is neither lost nor closed. *)
Theorem self_move_assign_identity (a : ref) (st : state L) :
  is_Some (objs st !! a) →
  file_mutex_move_assign a a st = (Ret (), st).
Proof. intros [ma Ha]. by apply (move_assign_self a ma). Qed.

(** X6: moving from an empty instance.  Move construction returns a new
    empty instance and changes nothing else.  Move assignment into another
    existing instance whose handle, if any, is open leaves both instances
    empty and closes the handle the destination held: assigning from an
    empty instance is an early release. *)
Theorem move_from_empty (a : ref) (st : state L) :
  empty_instance st a →
  (∃ b st',
     file_mutex_move_ctor a st = (Ret b, st') ∧
     objs st !! b = None ∧
     empty_instance st' b ∧
     empty_instance st' a ∧
     (∀ r, r ≠ b → objs st' !! r = objs st !! r) ∧
     os st' = os st) ∧
  (∀ b mb,
     objs st !! b = Some mb → b ≠ a →
     (∀ h, m_file_hnd (m_file_lock mb) = Some h →
           is_Some (w_open (os st) !! h)) →
     ∃ st',
       file_mutex_move_assign b a st = (Ret (), st') ∧
       empty_instance st' b ∧
       empty_instance st' a ∧
       (∀ r, r ≠ b → objs st' !! r = objs st !! r) ∧
       os st' = released (m_file_lock mb) (os st) ∧
       ∀ h, m_file_hnd (m_file_lock mb) = Some h →
            w_open (os st') !! h = None).
Proof.
  intros Ha. unfold empty_instance in *. split.
  - eexists _, _. split; [by apply move_ctor_live|]. simpl.
    assert (Hne : a ≠ fresh (dom (objs st)))
      by (apply live_not_fresh; eauto).
    split; [apply fresh_ref_unused|].
    split; [rewrite lookup_insert_ne by done; apply lookup_insert_eq|].
    split; [apply lookup_insert_eq|].
    split; [|done].
    intros r Hr. destruct (decide (r = a)) as [->|Hra].
    + by rewrite lookup_insert_eq.
    + by rewrite !lookup_insert_ne.
  - intros b mb Hb Hne Hopen. eexists.
    split; [by apply (move_assign_live b a mb _ st Hb Ha Hne)|]. simpl.
    split; [apply lookup_insert_eq|].
    split; [rewrite lookup_insert_ne by done; apply lookup_insert_eq|].
    split.
    { intros r Hr. rewrite lookup_insert_ne by done.
      destruct (decide (r = a)) as [->|Hra].
      - by rewrite lookup_insert_eq.
      - by rewrite lookup_insert_ne. }
    split; [done|].
    intros h Hh. unfold released. rewrite Hh. simpl.
    apply lookup_delete_eq.
Qed.

(** X7: move assignment into an empty instance is a swap: it has the
    result and leaves the state that [swap] of the two instances does. *)
Theorem move_assign_into_empty_is_swap (a b : ref) (st : state L) :
  is_Some (objs st !! a) → empty_instance st b →
  file_mutex_move_assign b a st = swap b a st.
Proof.
  intros [ma Ha] Hb. unfold empty_instance in Hb.
  destruct (decide (b = a)) as [->|Hne].
  - rewrite (move_assign_self a ma st Ha).
    rewrite (swap_live a a ma ma st Ha Ha). f_equal.
    transitivity {| objs := objs st; os := os st |};
      [symmetry; apply state_eta|].
    unfold with_objs. f_equal.
    rewrite insert_insert_eq. symmetry. by apply insert_id.
  - rewrite (move_assign_live b a _ ma st Hb Ha Hne)
      by (intros h; discriminate).
    rewrite (swap_live b a _ ma st Hb Ha).
    unfold with_objs, released. simpl. f_equal. f_equal.
    apply map_eq. intros r.
    destruct (decide (r = a)) as [->|Hra].
    + rewrite lookup_insert_ne by done. by rewrite !lookup_insert_eq.
    + rewrite (lookup_insert_ne _ a r) by done.
      destruct (decide (r = b)) as [->|Hrb].
      * by rewrite !lookup_insert_eq.
      * by rewrite !lookup_insert_ne.
Qed.

End Lifecycle.

Section SharedLockFile.
Context {L : Type} `{!FileLockApi L}.

Lemma open_not_fresh (fds : gmap nat string) (h : handle) :
  is_Some (fds !! h) → h ≠ fresh (dom fds).
Proof.
  intros Hh ->. rewrite fresh_fd_unused in Hh. by destruct Hh.
Qed.

(** X8: when two constructions over the same [(p, suffix)] return one
    after the other, the two instances are distinct, own distinct handles,
    both handles are bound to the same lock file, and the second
    construction changes no file. *)
Theorem ctor_twice_shares_lock_file (p suffix : path)
    (st st1 st2 : state L) (r1 r2 : ref) :
  file_mutex_ctor p suffix st = (Ret r1, st1) →
  file_mutex_ctor p suffix st1 = (Ret r2, st2) →
  r1 ≠ r2 ∧
  w_files (os st2) = w_files (os st1) ∧
  ∃ h1 h2,
    h1 ≠ h2 ∧
    owns st2 r1 h1 ∧ owns st2 r2 h2 ∧
    w_open (os st2) !! h1 = Some (build_file_lock_path p suffix) ∧
    w_open (os st2) !! h2 = Some (build_file_lock_path p suffix).
Proof.
  intros Hc1 Hc2.
  pose proof (file_mutex_ctor_returns _ _ _ _ _ Hc1) as Hd.
  pose proof (file_mutex_ctor_returns _ _ _ _ _ Hc2) as Hd1.
  rewrite (file_mutex_ctor_ok _ _ _ Hd) in Hc1.
  injection Hc1 as <- <-.
  rewrite (file_mutex_ctor_ok _ _ _ Hd1) in Hc2.
  injection Hc2 as <- <-.
  set (lp := build_file_lock_path p suffix) in *.
  set (r1 := fresh (dom (objs st))).
  set (h1 := fresh (dom (w_open (os st)))).
  set (st1 := {| objs := <[r1 := _]> (objs st); os := _ |}).
  assert (Hr : r1 ≠ fresh (dom (objs st1))).
  { apply live_not_fresh. simpl. rewrite lookup_insert_eq. eauto. }
  assert (Hh : h1 ≠ fresh (dom (w_open (os st1)))).
  { apply open_not_fresh. simpl. rewrite lookup_insert_eq. eauto. }
  split; [done|]. simpl. split.
  { fold lp. destruct (w_files (os st) !! lp) as [c|] eqn:Hf.
    - by rewrite Hf.
    - by rewrite lookup_insert_eq. }
  exists h1, (fresh (dom (w_open (os st1)))).
  split; [done|]. split.
  { eexists. split;
      [simpl; rewrite lookup_insert_ne by done; apply lookup_insert_eq
      |reflexivity]. }
  split; [eexists; split; [apply lookup_insert_eq|done]|].
  split; [rewrite lookup_insert_ne by done; apply lookup_insert_eq|].
  apply lookup_insert_eq.
Qed.

(** X9: [remove] looks at no instance and no handle: it never changes the
    objects, the descriptors or the lock state.  When it returns [true] on
    the lock-file path after a construction has returned, the lock file is
    gone although the instance still owns its open handle on it; and a
    later construction over the same pair that returns has created the
    lock file anew, empty. *)
Theorem remove_under_a_holder (p suffix : path) (st st1 st2 : state L)
    (r : ref) :
  (∀ q (s : state L),
     objs (remove q s).2 = objs s ∧
     w_open (os (remove q s).2) = w_open (os s) ∧
     w_locks (os (remove q s).2) = w_locks (os s)) ∧
  (file_mutex_ctor p suffix st = (Ret r, st1) →
   remove (build_file_lock_path p suffix) st1 = (Ret true, st2) →
   w_files (os st2) !! build_file_lock_path p suffix = None ∧
   (∃ h, owns st2 r h ∧
         w_open (os st2) !! h = Some (build_file_lock_path p suffix)) ∧
   ∀ r' st3,
     file_mutex_ctor p suffix st2 = (Ret r', st3) →
     w_files (os st3) !! build_file_lock_path p suffix = Some []).
Proof.
  split.
  { intros q s. unfold remove.
    destruct (filesystem_remove_frame q s) as (? & ? & ? & _). done. }
  intros Hc Hrm.
  pose proof (file_mutex_ctor_returns _ _ _ _ _ Hc) as Hd.
  rewrite (file_mutex_ctor_ok _ _ _ Hd) in Hc.
  injection Hc as <- <-.
  set (lp := build_file_lock_path p suffix) in *.
  unfold remove in Hrm.
  destruct (filesystem_remove_cases lp
              {| objs := <[fresh (dom (objs st)) :=
                             {| m_file_lock :=
                                  {| m_file_hnd :=
                                       Some (fresh (dom (w_open (os st))))
                                  |} |}]> (objs st);
                 os := {| w_files :=
                            match w_files (os st) !! lp with
                            | Some _ => w_files (os st)
                            | None => <[lp := []]> (w_files (os st))
                            end;
                          w_denied := w_denied (os st);
                          w_open := <[fresh (dom (w_open (os st))) := lp]>
                                      (w_open (os st));
                          w_locks := fl_on_close
                                       (fresh (dom (w_open (os st))))
                                       (w_locks (os st)) |} |})
    as [(_ & Hr)|[(_ & _ & Hr)|(_ & _ & Hr)]];
    rewrite Hr in Hrm; try discriminate.
  injection Hrm as <-. simpl.
  split; [apply lookup_delete_eq|]. split.
  { eexists. split; [eexists; split; [apply lookup_insert_eq|done]|].
    apply lookup_insert_eq. }
  intros r' st3 Hc3.
  pose proof (file_mutex_ctor_returns _ _ _ _ _ Hc3) as Hd3.
  rewrite (file_mutex_ctor_ok _ _ _ Hd3) in Hc3.
  injection Hc3 as <- <-. simpl. fold lp.
  rewrite lookup_delete_eq. apply lookup_insert_eq.
Qed.

End SharedLockFile.

Section FileFrame.
Context {L : Type} `{!FileLockApi L}.

Lemma keeps_ret (P : state L → Prop) {A} (a : A) : keeps P (mret a).
Proof. by intros st Hst. Qed.

Lemma keeps_bind (P : state L → Prop) {A B} (m : M L A) (k : A → M L B) :
  keeps P m → (∀ a, keeps P (k a)) → keeps P (m ≫= k).
Proof.
  intros Hm Hk st Hst. specialize (Hm st Hst).
  call_unfold. destruct (m st) as [[a|e| |] st1]; simpl in *; try done.
  by apply Hk.
Qed.

(** [swap] leaves the operating system alone, however it ends. *)
Lemma swap_os (a b : ref) (st : state L) : os (swap a b st).2 = os st.
Proof.
  destruct (objs st !! a) as [ma|] eqn:Ha;
    [|by rewrite swap_dangling by (by left)].
  destruct (objs st !! b) as [mb|] eqn:Hb;
    [|by rewrite swap_dangling by (by right)].
  by rewrite (swap_live a b ma mb).
Qed.

(** The destructor changes no file, however it ends. *)
Lemma dtor_files (r : ref) (st : state L) :
  w_files (os (file_mutex_dtor r st).2) = w_files (os st).
Proof.
  destruct (objs st !! r) as [m|] eqn:Hr; [|by rewrite dtor_dangling].
  destruct (m_file_hnd (m_file_lock m)) as [h|] eqn:Hh.
  - destruct (w_open (os st) !! h) as [q|] eqn:Hq.
    + rewrite (dtor_live r m); [|done|].
      * unfold released. by rewrite Hh.
      * intros h' Hh'. assert (h' = h) as -> by congruence. eauto.
    + by rewrite (dtor_double_release r m h).
  - rewrite (dtor_live r m); [|done|].
    + unfold released. by rewrite Hh.
    + intros h' Hh'. congruence.
Qed.

Lemma invoke_files (c : locking_call) (r : ref) (st : state L) :
  w_files (os (invoke c r st).2) = w_files (os st).
Proof.
  destruct (objs st !! r) as [m|] eqn:Hr.
  - by rewrite (invoke_delegates c r m st Hr).
  - by rewrite invoke_dangling.
Qed.

Lemma move_ctor_files (F : gmap string (list Byte.byte)) (a : ref) :
  keeps (fun st : state L => w_files (os st) = F) (file_mutex_move_ctor a).
Proof.
  apply keeps_bind; [by intros st Hst|].
  intros this. apply keeps_bind; [|intros _; apply keeps_ret].
  intros st Hst. by rewrite swap_os.
Qed.

Lemma move_assign_files (F : gmap string (list Byte.byte)) (a b : ref) :
  keeps (fun st : state L => w_files (os st) = F)
    (file_mutex_move_assign a b).
Proof.
  apply keeps_bind; [apply move_ctor_files|].
  intros tmp. apply keeps_bind.
  - intros st Hst. by rewrite swap_os.
  - intros _ st Hst. by rewrite dtor_files.
Qed.

(** Only a construction and a removal change the file system, and each
    only at its own path. *)
Lemma run_op_files (o : op) (st : state L) (q : path) :
  w_files (os (run_op o st).2) !! q = w_files (os st) !! q ∨
  (o = op_remove q ∧ is_Some (w_files (os st) !! q) ∧
     w_files (os (run_op o st).2) !! q = None) ∨
  (∃ p sfx, o = op_ctor p sfx ∧ build_file_lock_path p sfx = q ∧
     w_files (os st) !! q = None ∧
     w_files (os (run_op o st).2) !! q = Some []).
Proof.
  assert (Hsame : ∀ m : M L (),
            keeps (fun s : state L => w_files (os s) = w_files (os st)) m →
            w_files (os (m st).2) !! q = w_files (os st) !! q).
  { intros m Hm. by rewrite (Hm st eq_refl). }
  destruct o as [|p sfx|moved|this moved|this other|c this|p|this];
    simpl.
  - left. by call_unfold.
  - call_unfold.
    destruct (decide (build_file_lock_path p sfx ∈ w_denied (os st)))
      as [Hd|Hd].
    + left. by rewrite file_mutex_ctor_denied.
    + rewrite file_mutex_ctor_ok by done. simpl.
      destruct (w_files (os st) !! build_file_lock_path p sfx) eqn:Hf;
        [by left|].
      destruct (decide (q = build_file_lock_path p sfx)) as [->|Hq].
      * right; right. exists p, sfx.
        by rewrite lookup_insert_eq.
      * left. by rewrite lookup_insert_ne.
  - left. apply Hsame.
    apply keeps_bind; [apply move_ctor_files|intros _; apply keeps_ret].
  - left. apply Hsame, move_assign_files.
  - left. by rewrite swap_os.
  - left. apply Hsame.
    apply keeps_bind; [|intros _; apply keeps_ret].
    intros s Hs. by rewrite invoke_files.
  - call_unfold. unfold remove.
    destruct (filesystem_remove_cases p st)
      as [(_ & ->)|[(_ & _ & ->)|(_ & Hex & ->)]]; simpl;
      [by left..|].
    destruct (decide (q = p)) as [->|Hq].
    + right; left. rewrite lookup_delete_eq. eauto.
    + left. by rewrite lookup_delete_ne.
  - left. by rewrite dtor_files.
Qed.

(** X10: no member other than [remove] deletes or rewrites a file.  A
    call that is not a [remove] leaves every existing file with its
    contents, and so does any sequence of such calls: constructions open
    the lock file in append mode and write nothing, destructions close
    without deleting, and the lock file outlives every instance. *)
Theorem files_change_only_by_ctor_and_remove (q : path)
    (c : list Byte.byte) :
  (∀ (o : op) (st : state L),
     w_files (os st) !! q = Some c →
     (∀ p, o ≠ op_remove p) →
     w_files (os (run_op o st).2) !! q = Some c) ∧
  (∀ (ops : list op) (st : state L),
     w_files (os st) !! q = Some c →
     Forall (fun o => ∀ p, o ≠ op_remove p) ops →
     w_files (os (exec ops st)) !! q = Some c).
Proof.
  assert (Hstep : ∀ (o : op) (st : state L),
            w_files (os st) !! q = Some c →
            (∀ p, o ≠ op_remove p) →
            w_files (os (run_op o st).2) !! q = Some c).
  { intros o st Hc Ho.
    destruct (run_op_files o st q)
      as [->|[(-> & _)|(p & sfx & _ & _ & Hn & _)]].
    - done.
    - by destruct (Ho q).
    - congruence. }
  split; [done|].
  intros ops. induction ops as [|o ops IH]; intros st Hc Hall; [done|].
  apply Forall_cons in Hall as [Ho Hall]. simpl. apply IH; [|done].
  by apply Hstep.
Qed.

End FileFrame.

Section Ledger.
Context {L : Type} `{!FileLockApi L}.

(** The ledger carries over when ownership is renamed back and forth,
    unowned descriptors stay open and no descriptor appears. *)
Lemma ledger_transfer (w : os_world L) (st st' : state L)
    (f g : ref → ref) :
  single_owner st' →
  (∀ r h, owns st' r h → owns st (f r) h) →
  (∀ r h, owns st r h → is_Some (w_open (os st') !! h) →
          owns st' (g r) h) →
  (∀ fd p, w_open (os st) !! fd = Some p → (∀ r, ¬ owns st r fd) →
           w_open (os st') !! fd = Some p) →
  (∀ fd, is_Some (w_open (os st') !! fd) →
         is_Some (w_open (os st) !! fd)) →
  ledger w st → ledger w st'.
Proof.
  intros Hso Hback Hforth Hstay Hnew (_ & Horig & Hacc).
  split; [done|]. split.
  - intros fd p Hfd. destruct (Horig fd p Hfd) as [Hopen Hun].
    split; [by apply Hstay|].
    intros r Hr. apply (Hun (f r)). by apply Hback.
  - intros fd Hfd. destruct (Hacc fd (Hnew fd Hfd)) as [?|[r Hr]];
      [by left|right].
    exists (g r). by apply Hforth.
Qed.

Lemma ledger_same (w : os_world L) (st st' : state L) :
  objs st' = objs st → w_open (os st') = w_open (os st) →
  ledger w st → ledger w st'.
Proof.
  intros Ho Hw Hl.
  apply (ledger_transfer w st st' id id); try done.
  - apply (single_owner_same st st'); [done..|]. apply Hl.
  - intros r h. unfold owns. by rewrite Ho.
  - intros r h Hr _. unfold owns in *. by rewrite Ho.
  - intros fd p Hfd _. by rewrite Hw.
  - intros fd. by rewrite Hw.
Qed.

Lemma ledger_init (w : os_world L) : ledger w (init w).
Proof.
  assert (Hnone : ∀ r h, ¬ owns (init w) r h).
  { intros r h (m & Hm & _). simpl in Hm. by rewrite lookup_empty in Hm. }
  split; [apply single_owner_init|]. split.
  - intros fd p Hfd. split; [done|]. intros r. apply Hnone.
  - intros fd Hfd. by left.
Qed.

Lemma new_empty_keeps_ledger (w : os_world L) :
  keeps (ledger w) (new_object {| m_file_lock := file_lock_default |}).
Proof.
  intros st Hl.
  apply (ledger_transfer w st _ id id); try done.
  - apply new_empty_preserves, Hl.
  - intros r h (m & Hr & Hh). simpl in Hr.
    destruct (decide (r = fresh (dom (objs st)))) as [->|Hne].
    + rewrite lookup_insert_eq in Hr. injection Hr as <-. discriminate.
    + rewrite lookup_insert_ne in Hr by done. by exists m.
  - intros r h (m & Hr & Hh) _. exists m. split; [|done]. simpl.
    rewrite lookup_insert_ne; [done|].
    intros Heq. symmetry in Heq. revert Heq.
    apply live_not_fresh. eauto.
Qed.

Lemma swap_keeps_ledger (w : os_world L) (a b : ref) :
  keeps (ledger w) (swap a b).
Proof.
  intros st Hl.
  destruct (objs st !! a) as [ma|] eqn:Ha;
    [|rewrite swap_dangling by (by left); done].
  destruct (objs st !! b) as [mb|] eqn:Hb;
    [|rewrite swap_dangling by (by right); done].
  pose proof (swap_preserves a b st (proj1 Hl)) as Hso.
  rewrite (swap_live a b ma mb) in * by done. simpl in *.
  set (f := fun r : nat => if decide (r = a) then b
                           else if decide (r = b) then a else r).
  assert (Hinv : ∀ r, f (f r) = r).
  { intros r. unfold f. repeat case_decide; congruence. }
  apply (ledger_transfer w st _ f f); try done.
  - intros r h (m & Hr & Hh). exists m. split; [|done].
    simpl in Hr. by rewrite (swap_objs_lookup a b r ma mb) in Hr.
  - intros r h (m & Hr & Hh) _. exists m. split; [|done]. simpl.
    rewrite (swap_objs_lookup a b (f r) ma mb) by done.
    fold (f (f r)). by rewrite Hinv.
Qed.

Lemma dtor_keeps_ledger (w : os_world L) (r : ref) :
  keeps (ledger w) (file_mutex_dtor r).
Proof.
  intros st Hl.
  pose proof (dtor_preserves r st (proj1 Hl)) as Hso.
  destruct (objs st !! r) as [m|] eqn:Hr;
    [|by rewrite dtor_dangling].
  rewrite (dtor_live r m) in *
    by (done || by apply (single_owner_open st r); [apply Hl|]).
  simpl in *.
  apply (ledger_transfer w st _ id id); try done.
  - intros r' h (m' & Hr' & Hh'). simpl in Hr'.
    apply lookup_delete_Some in Hr' as [_ Hr']. by exists m'.
  - intros r' h (m' & Hr' & Hh') Hopen. simpl in *.
    exists m'. split; [|done]. simpl.
    rewrite lookup_delete_ne; [done|]. intros <-.
    assert (m' = m) as -> by congruence.
    unfold released in Hopen. rewrite Hh' in Hopen. simpl in Hopen.
    rewrite lookup_delete_eq in Hopen. by destruct Hopen.
  - intros fd p Hfd Hun. simpl. unfold released.
    destruct (m_file_hnd (m_file_lock m)) as [h|] eqn:Hh; [|done].
    simpl. rewrite lookup_delete_ne; [done|]. intros ->.
    apply (Hun r). by exists m.
  - intros fd. simpl. unfold released.
    destruct (m_file_hnd (m_file_lock m)) as [h|]; [|done]. simpl.
    intros [p Hp]. apply lookup_delete_Some in Hp as [_ Hp]. eauto.
Qed.

Lemma ctor_keeps_ledger (w : os_world L) (p sfx : path) :
  keeps (ledger w) (file_mutex_ctor p sfx).
Proof.
  intros st Hl.
  pose proof (ctor_preserves p sfx st (proj1 Hl)) as Hso.
  destruct Hl as (Hso0 & Horig & Hacc).
  destruct (decide (build_file_lock_path p sfx ∈ w_denied (os st)))
    as [Hd|Hd].
  { by rewrite file_mutex_ctor_denied. }
  rewrite file_mutex_ctor_ok in * by done. simpl in *.
  set (r0 := fresh (dom (objs st))) in *.
  set (fd0 := fresh (dom (w_open (os st)))) in *.
  split; [done|]. split.
  - intros fd q Hfd. destruct (Horig fd q Hfd) as [Hopen Hun].
    assert (Hne : fd ≠ fd0) by (apply open_not_fresh; eauto).
    split; [simpl; by rewrite lookup_insert_ne|].
    intros r (m & Hr & Hh). simpl in Hr.
    destruct (decide (r = r0)) as [->|Hr0].
    + rewrite lookup_insert_eq in Hr. injection Hr as <-.
      simpl in Hh. congruence.
    + rewrite lookup_insert_ne in Hr by done.
      apply (Hun r). by exists m.
  - intros fd Hfd. simpl in Hfd.
    destruct (decide (fd = fd0)) as [->|Hne].
    + right. exists r0. eexists. split; [apply lookup_insert_eq|done].
    + rewrite lookup_insert_ne in Hfd by done.
      destruct (Hacc fd Hfd) as [?|(r & m & Hr & Hh)]; [by left|right].
      exists r, m. split; [|done]. simpl.
      rewrite lookup_insert_ne; [done|].
      intros Heq. symmetry in Heq. revert Heq.
      apply live_not_fresh. eauto.
Qed.

Lemma run_op_keeps_ledger (w : os_world L) (o : op) :
  keeps (ledger w) (run_op o).
Proof.
  assert (Hmc : ∀ a, keeps (ledger w) (file_mutex_move_ctor a)).
  { intros a. apply keeps_bind; [apply new_empty_keeps_ledger|].
    intros this. apply keeps_bind; [apply swap_keeps_ledger|].
    intros _. apply keeps_ret. }
  destruct o as [|p sfx|moved|this moved|this other|c this|p|this];
    simpl.
  - apply keeps_bind; [apply new_empty_keeps_ledger|].
    intros _. apply keeps_ret.
  - apply keeps_bind; [apply ctor_keeps_ledger|].
    intros _. apply keeps_ret.
  - apply keeps_bind; [apply Hmc|]. intros _. apply keeps_ret.
  - apply keeps_bind; [apply Hmc|].
    intros tmp. apply keeps_bind; [apply swap_keeps_ledger|].
    intros _. apply dtor_keeps_ledger.
  - apply swap_keeps_ledger.
  - apply keeps_bind; [|intros _; apply keeps_ret].
    intros st. apply ledger_same.
    + destruct (objs st !! this) as [m|] eqn:Hr.
      * by rewrite (invoke_delegates c this m st Hr).
      * by rewrite invoke_dangling.
    + destruct (objs st !! this) as [m|] eqn:Hr.
      * by rewrite (invoke_delegates c this m st Hr).
      * by rewrite invoke_dangling.
  - apply keeps_bind; [|intros _; apply keeps_ret].
    intros st. apply ledger_same; apply filesystem_remove_frame.
  - apply dtor_keeps_ledger.
Qed.

Lemma exec_keeps_ledger (w : os_world L) (ops : list op) (st : state L) :
  ledger w st → ledger w (exec ops st).
Proof.
  revert st. induction ops as [|o ops IH]; intros st Hst; [done|].
  simpl. apply IH. by apply run_op_keeps_ledger.
Qed.

(** X11: the class accounts for every descriptor.  In every state a
    program reaches from a start without instances, each descriptor that
    was open at the start is still open on the same file and is owned by
    no instance, and each other open descriptor is owned by an instance:
    the stream opened during construction and the temporary of a move
    assignment leave nothing open.  Once every instance is destroyed the
    open descriptors are exactly those of the start. *)
Theorem descriptors_accounted (w : os_world L) (ops : list op) :
  (∀ fd p, w_open w !! fd = Some p →
     w_open (os (exec ops (init w))) !! fd = Some p ∧
     ∀ r, ¬ owns (exec ops (init w)) r fd) ∧
  (∀ fd, is_Some (w_open (os (exec ops (init w))) !! fd) →
     is_Some (w_open w !! fd) ∨ ∃ r, owns (exec ops (init w)) r fd) ∧
  (objs (exec ops (init w)) = ∅ →
     w_open (os (exec ops (init w))) = w_open w).
Proof.
  destruct (exec_keeps_ledger w ops (init w) (ledger_init w))
    as (_ & Horig & Hacc).
  split; [done|]. split; [done|].
  intros Hempty. apply map_eq. intros fd.
  destruct (w_open w !! fd) as [p|] eqn:Hw.
  - by apply Horig.
  - destruct (w_open (os (exec ops (init w))) !! fd) as [q|] eqn:Hq;
      [|done].
    destruct (Hacc fd) as [[? ?]|(r & m & Hr & _)]; [eauto|congruence|].
    rewrite Hempty, lookup_empty in Hr. discriminate.
Qed.

End Ledger.

Section MovedFrom.
Context {L : Type} `{!FileLockApi L}.

(** X12: a moved-from instance can be destroyed safely.  When [a] owns an
    open handle [h] and [b] is move-constructed from [a], destroying [a]
    afterwards returns, closes nothing and leaves [b] the owner of the
    still open [h]; destroying [b] then closes [h], and the objects and
    descriptors that remain are those from before the move without [a] and
    without [h]. *)
Theorem moved_from_dtor_closes_nothing (a : ref) (h : handle)
    (st : state L) :
  owns st a h → is_Some (w_open (os st) !! h) →
  ∃ b st1 st2 st3,
    file_mutex_move_ctor a st = (Ret b, st1) ∧
    file_mutex_dtor a st1 = (Ret (), st2) ∧
    os st2 = os st ∧
    owns st2 b h ∧
    objs st2 !! a = None ∧
    file_mutex_dtor b st2 = (Ret (), st3) ∧
    objs st3 = delete a (objs st) ∧
    w_open (os st3) = delete h (w_open (os st)).
Proof.
  intros (ma & Ha & Hh) Hopen.
  assert (Hne : a ≠ fresh (dom (objs st)))
    by (apply live_not_fresh; eauto).
  eexists _, _, _, _. split; [by apply move_ctor_live|].
  split.
  { apply (dtor_live a empty_mutex).
    - simpl. apply lookup_insert_eq.
    - intros h'. discriminate. }
  unfold released. simpl.
  split; [done|].
  split.
  { exists ma. split; [|done]. simpl.
    rewrite lookup_delete_ne by done.
    rewrite lookup_insert_ne by done. apply lookup_insert_eq. }
  split; [simpl; apply lookup_delete_eq|].
  split.
  { apply (dtor_live _ ma).
    - simpl. rewrite lookup_delete_ne by done.
      rewrite lookup_insert_ne by done. apply lookup_insert_eq.
    - simpl. intros h' Hh'. assert (h' = h) as -> by congruence. done. }
  unfold released. rewrite Hh. simpl. split; [|done].
  apply map_eq. intros r.
  destruct (decide (r = fresh (dom (objs st)))) as [->|Hr].
  - rewrite lookup_delete_eq, lookup_delete_ne by done.
    symmetry. apply fresh_ref_unused.
  - rewrite lookup_delete_ne by done.
    destruct (decide (r = a)) as [->|Hra].
    + by rewrite !lookup_delete_eq.
    + rewrite !lookup_delete_ne by done.
      by rewrite !lookup_insert_ne.
Qed.

End MovedFrom.

(** ** The further properties on concrete states *)

Lemma default_ctor_dtor_round_trip_witness :
  ∃ r st1,
    file_mutex_default two_instances = (Ret r, st1) ∧
    objs two_instances !! r = None ∧
    empty_instance st1 r ∧
    (∀ r', r' ≠ r → objs st1 !! r' = objs two_instances !! r') ∧
    os st1 = os two_instances ∧
    file_mutex_dtor r st1 = (Ret (), two_instances).
Proof. exact (default_ctor_dtor_round_trip two_instances). Defined.

Lemma ctor_dtor_leaves_no_descriptor_witness :
  ∃ st2,
    file_mutex_dtor 0
      (file_mutex_ctor "a" ".lock" (init RefLocks.w_empty)).2
      = (Ret (), st2) ∧
    objs st2 = objs (init RefLocks.w_empty) ∧
    w_open (os st2) = w_open (os (init RefLocks.w_empty)) ∧
    w_files (os st2)
      = w_files (os (file_mutex_ctor "a" ".lock"
                       (init RefLocks.w_empty)).2) ∧
    is_Some (w_files (os st2) !! build_file_lock_path "a" ".lock").
Proof.
  destruct (ctor_dtor_leaves_no_descriptor "a" ".lock"
              (init RefLocks.w_empty)) as [_ Hret].
  apply Hret. vm_compute; reflexivity.
Defined.

Lemma self_move_assign_identity_witness :
  file_mutex_move_assign 0 0 two_instances = (Ret (), two_instances).
Proof.
  apply (self_move_assign_identity 0 two_instances).
  eexists. vm_compute; reflexivity.
Defined.

Lemma move_from_empty_witness :
  ∃ st',
    file_mutex_move_assign 0 2 three_instances = (Ret (), st') ∧
    empty_instance st' 0 ∧
    empty_instance st' 2 ∧
    (∀ r, r ≠ 0 → objs st' !! r = objs three_instances !! r) ∧
    os st' = released {| m_file_hnd := Some 0 |} (os three_instances) ∧
    ∀ h, Some 0 = Some h → w_open (os st') !! h = None.
Proof.
  assert (Hempty : empty_instance three_instances 2)
    by (vm_compute; reflexivity).
  destruct (move_from_empty 2 three_instances Hempty) as [_ Hassign].
  apply (Hassign 0 {| m_file_lock := {| m_file_hnd := Some 0 |} |}).
  - vm_compute; reflexivity.
  - discriminate.
  - intros h [= <-]. eexists. vm_compute; reflexivity.
Defined.

Lemma move_assign_into_empty_is_swap_witness :
  file_mutex_move_assign 2 0 three_instances = swap 2 0 three_instances.
Proof.
  apply (move_assign_into_empty_is_swap 0 2 three_instances).
  - eexists. vm_compute; reflexivity.
  - vm_compute; reflexivity.
Defined.

Lemma ctor_twice_shares_lock_file_witness :
  0 ≠ 1 ∧
  w_files (os two_instances)
    = w_files (os (file_mutex_ctor "a" ".lock"
                     (init RefLocks.w_empty)).2) ∧
  ∃ h1 h2,
    h1 ≠ h2 ∧
    owns two_instances 0 h1 ∧ owns two_instances 1 h2 ∧
    w_open (os two_instances) !! h1
      = Some (build_file_lock_path "a" ".lock") ∧
    w_open (os two_instances) !! h2
      = Some (build_file_lock_path "a" ".lock").
Proof.
  apply (ctor_twice_shares_lock_file "a" ".lock" (init RefLocks.w_empty)
           (file_mutex_ctor "a" ".lock" (init RefLocks.w_empty)).2
           two_instances 0 1);
    vm_compute; reflexivity.
Defined.

Lemma remove_under_a_holder_witness :
  w_files (os (remove "a.lock"
                 (file_mutex_ctor "a" ".lock"
                    (init RefLocks.w_empty)).2).2)
    !! build_file_lock_path "a" ".lock" = None ∧
  (∃ h,
     owns (remove "a.lock"
             (file_mutex_ctor "a" ".lock" (init RefLocks.w_empty)).2).2
       0 h ∧
     w_open (os (remove "a.lock"
                   (file_mutex_ctor "a" ".lock"
                      (init RefLocks.w_empty)).2).2) !! h
       = Some (build_file_lock_path "a" ".lock")) ∧
  ∀ r' st3,
    file_mutex_ctor "a" ".lock"
      (remove "a.lock"
         (file_mutex_ctor "a" ".lock" (init RefLocks.w_empty)).2).2
      = (Ret r', st3) →
    w_files (os st3) !! build_file_lock_path "a" ".lock" = Some [].
Proof.
  destruct (remove_under_a_holder "a" ".lock" (init RefLocks.w_empty)
              (file_mutex_ctor "a" ".lock" (init RefLocks.w_empty)).2
              (remove "a.lock"
                 (file_mutex_ctor "a" ".lock"
                    (init RefLocks.w_empty)).2).2 0) as [_ Hheld].
  apply Hheld; vm_compute; reflexivity.
Defined.

Lemma files_change_only_by_ctor_and_remove_witness :
  w_files (os (exec [op_ctor "a" ""; op_ctor "a" ".lock";
                     op_locking call_try_lock 0; op_move_assign 1 0;
                     op_dtor 0; op_dtor 1]
                 (init RefLocks.w0))) !! "a"
    = Some [Byte.x61].
Proof.
  destruct (files_change_only_by_ctor_and_remove
              (L:=gmap nat RefLocks.claim) "a" [Byte.x61]) as [_ Hkeep].
  apply Hkeep; [vm_compute; reflexivity|].
  repeat (constructor; [intros p; discriminate|]). constructor.
Defined.

Lemma descriptors_accounted_witness :
  w_open (os (exec [op_ctor "a" ".lock"; op_ctor "a" ".lock";
                    op_move_assign 0 1; op_dtor 1; op_dtor 0]
                (init RefLocks.w_empty)))
    = w_open RefLocks.w_empty.
Proof.
  destruct (descriptors_accounted RefLocks.w_empty
              [op_ctor "a" ".lock"; op_ctor "a" ".lock";
               op_move_assign 0 1; op_dtor 1; op_dtor 0])
    as (_ & _ & Hclean).
  apply Hclean. vm_compute; reflexivity.
Defined.

Lemma moved_from_dtor_closes_nothing_witness :
  ∃ b st1 st2 st3,
    file_mutex_move_ctor 0 two_instances = (Ret b, st1) ∧
    file_mutex_dtor 0 st1 = (Ret (), st2) ∧
    os st2 = os two_instances ∧
    owns st2 b 0 ∧
    objs st2 !! 0 = None ∧
    file_mutex_dtor b st2 = (Ret (), st3) ∧
    objs st3 = delete 0 (objs two_instances) ∧
    w_open (os st3) = delete 0 (w_open (os two_instances)).
Proof.
  apply (moved_from_dtor_closes_nothing 0 0 two_instances).
  - eexists. split; vm_compute; reflexivity.
  - eexists. vm_compute; reflexivity.
Defined.

(** * Mutual exclusion on a lock file, in the reference facility *)

Section Exclusion.
Import RefLocks.


















End Exclusion.

